(** * Shamir secret reconstruction (node.js): a shallow embedding

    The development follows [src/node.js]:
    - [gcd], the Euclidean loop on BigInts;
    - [Rational], the exact fraction class with its normalising constructor;
    - [parseBigInt], the digit parser for radices up to 36;
    - [computeConstantTerm], Lagrange interpolation at 0 over the first
      [k] entries of a test case.

    BigInts are [Z]; BigInt [/] is truncated division ([Z.quot]) and [%] its
    remainder ([Z.rem]).  A thrown [Error] is a value of [error]; code that
    may throw lives in the [result] monad.  Strings are ASCII strings.  A
    test case is the object [JSON.parse] builds: its properties are kept in
    creation order and [Object.entries] enumerates them as ordinary objects
    do.  The threshold [k] and the radix of an entry are integers. *)

From Equations Require Import Equations.
From Stdlib Require Import ZArith List Lia Bool String Ascii QArith.
From Stdlib Require Import Permutation Sorted.
Import ListNotations.
Local Open Scope Z_scope.

(** ** Errors and the monad of code that may throw *)

(** One constructor per [throw] site of the source, plus the two built-in
    exceptions the code can raise. *)
Inductive error : Type :=
| DivisionByZero      (* 'Denominator cannot be zero' *)
| NonIntegralResult   (* 'Result is not an integer: n/d' *)
| InvalidDigit        (* 'Invalid digit ch for base b' *)
| DigitOutOfRange     (* 'Digit ch out of range for base b' *)
| TypeError           (* reading a property of [undefined] *)
| SyntaxError.        (* [BigInt(s)] on a string that is no integer literal *)

Inductive result (A : Type) : Type :=
| Ok (a : A)
| Throw (e : error).
Arguments Ok {A} a.
Arguments Throw {A} e.

Definition bind {A B : Type} (m : result A) (f : A -> result B) : result B :=
  match m with
  | Ok a => f a
  | Throw e => Throw e
  end.

Notation "x <- m ;; f" := (bind m (fun x => f))
  (at level 61, m at next level, right associativity).

(** [for (const j of js) s = body(j, s)], stopping at the first throw. *)
Fixpoint for_each {S : Type} (js : list nat) (body : nat -> S -> result S)
  (s : S) : result S :=
  match js with
  | [] => Ok s
  | j :: js' => s' <- body j s ;; for_each js' body s'
  end.

(** [xs.map(f)] for an [f] that may throw: elements are visited in order. *)
Fixpoint map_result {A B : Type} (f : A -> result B) (xs : list A)
  : result (list B) :=
  match xs with
  | [] => Ok []
  | a :: xs' => b <- f a ;; bs <- map_result f xs' ;; Ok (b :: bs)
  end.

(** ** [gcd] (node.js lines 5-14) *)

(** The [while (b !== 0n)] loop; [Z.abs b] strictly decreases. *)
Equations? gcd_loop (a b : Z) : Z by wf (Z.abs_nat b) lt :=
  gcd_loop a b with Z.eq_dec b 0 := {
    | left _ => a
    | right _ => gcd_loop b (Z.rem a b) }.
Proof.
  pose proof (Z.rem_bound_abs a b n) as Hr. lia.
Qed.

Definition gcd (a b : Z) : Z :=
  let a := if a <? 0 then - a else a in
  let b := if b <? 0 then - b else b in
  gcd_loop a b.

(** ** [class Rational] (node.js lines 17-55) *)

Module Rational.

Record t : Type := mk { n : Z; d : Z }.

(** The constructor, lines 18-30. *)
Definition new (numerator denominator : Z) : result t :=
  if denominator =? 0 then Throw DivisionByZero
  else
    let '(numerator, denominator) :=
      if denominator <? 0 then (- numerator, - denominator)
      else (numerator, denominator) in
    let g := gcd numerator denominator in
    Ok {| n := numerator ÷ g; d := denominator ÷ g |}.

(** Lines 33-38. *)
Definition add (this r : t) : result t :=
  new (n this * d r + n r * d this) (d this * d r).

(** Lines 41-46. *)
Definition multiply (this r : t) : result t :=
  new (n this * n r) (d this * d r).

(** Lines 49-54. *)
Definition toBigInt (this : t) : result Z :=
  if negb (d this =? 1) then Throw NonIntegralResult
  else Ok (n this).

End Rational.

(** ** [parseBigInt] (node.js lines 58-76) *)

Definition charCode (ch : ascii) : Z := Z.of_nat (nat_of_ascii ch).

(** [ch1 <= ch2] on one-character strings compares code units. *)
Definition char_le (c1 c2 : ascii) : bool := charCode c1 <=? charCode c2.

(** [toLowerCase] on ASCII: only [A]-[Z] change. *)
Definition toLowerCase_char (ch : ascii) : ascii :=
  if char_le "A" ch && char_le ch "Z"
  then ascii_of_nat (nat_of_ascii ch + 32)
  else ch.

Definition toLowerCase (s : list ascii) : list ascii := map toLowerCase_char s.

(** Lines 62-69: the digit a character denotes. *)
Definition digit_of (ch : ascii) : result Z :=
  if char_le "0" ch && char_le ch "9" then Ok (charCode ch - 48)
  else if char_le "a" ch && char_le ch "z" then Ok (charCode ch - 87)
  else Throw InvalidDigit.

(** The body of the [for (const ch of ...)] loop, lines 61-74, over the
    characters still to read; [acc] is the variable [result]. *)
Fixpoint parse_loop (chars : list ascii) (b : Z) (acc : Z) : result Z :=
  match chars with
  | [] => Ok acc
  | ch :: rest =>
      digit <- digit_of ch ;;
      if digit >=? b then Throw DigitOutOfRange
      else parse_loop rest b (acc * b + digit)
  end.

Definition parseBigInt (str : string) (base : Z) : result Z :=
  parse_loop (toLowerCase (list_ascii_of_string str)) base 0.

(** ** The test-case object and its enumeration order *)

(** A point entry [{ base, value }].  [base] holds the integer that
    [Number(base)] evaluates to (the input gives it as an integer or as its
    decimal string); [value] is the digit string. *)
Record Share : Type := { base : Z; value : string }.

(** A test case [{ keys: { k }, label: { base, value }, ... }], with an
    integer [k].  [pointsRaw] lists the properties other than [keys] in
    creation order, the order in which the labels were written; labels are
    pairwise different. *)
Record TestCase : Type := { keys_k : Z; pointsRaw : list (string * Share) }.

Module Point.
Record t : Type := mk { x : Z; y : Z }.
End Point.

Definition is_decimal_digit (ch : ascii) : bool :=
  char_le "0" ch && char_le ch "9".

(** A property key is an array index when it is the canonical decimal
    numeral of an integer in [0, 2^32 - 2]: no sign, no leading zero. *)
Definition array_index (key : string) : option Z :=
  match list_ascii_of_string key with
  | [] => None
  | ch :: rest =>
      if forallb is_decimal_digit (ch :: rest)
         && (negb (Ascii.eqb ch "0") || (List.length rest =? 0)%nat)
      then
        match parse_loop (ch :: rest) 10 0 with
        | Ok v => if v <? 2 ^ 32 - 1 then Some v else None
        | Throw _ => None
        end
      else None
  end.

Fixpoint insert_index {V : Type} (i : Z) (p : string * V)
  (l : list (Z * (string * V))) : list (Z * (string * V)) :=
  match l with
  | [] => [(i, p)]
  | (j, q) :: l' =>
      if i <? j then (i, p) :: l else (j, q) :: insert_index i p l'
  end.

Fixpoint index_properties {V : Type} (props : list (string * V))
  : list (Z * (string * V)) :=
  match props with
  | [] => []
  | p :: props' =>
      match array_index (fst p) with
      | Some i => insert_index i p (index_properties props')
      | None => index_properties props'
      end
  end.

Definition is_array_index (key : string) : bool :=
  match array_index key with Some _ => true | None => false end.

(** [Object.entries(o)] on an ordinary object (and the rest pattern
    [{ keys, ...pointsRaw }], which copies in the same order): own string
    keys that are array indices come first, in ascending numeric order, and
    the other keys follow in creation order. *)
Definition Object_entries {V : Type} (props : list (string * V))
  : list (string * V) :=
  map snd (index_properties props)
  ++ filter (fun p => negb (is_array_index (fst p))) props.

(** ** [BigInt(xStr)] on a string *)

Definition is_white_space (ch : ascii) : bool :=
  let c := charCode ch in
  ((9 <=? c) && (c <=? 13)) || (c =? 32).

Fixpoint trim_start (s : list ascii) : list ascii :=
  match s with
  | [] => []
  | ch :: rest => if is_white_space ch then trim_start rest else s
  end.

Definition trim (s : list ascii) : list ascii :=
  rev (trim_start (rev (trim_start s))).

(** One or more digits of the given radix. *)
Definition digits_value (radix : Z) (ds : list ascii) : result Z :=
  match ds with
  | [] => Throw SyntaxError
  | _ =>
      match parse_loop (toLowerCase ds) radix 0 with
      | Ok v => Ok v
      | Throw _ => Throw SyntaxError
      end
  end.

(** StringToBigInt: surrounding white space is dropped, the empty string
    is 0, a decimal numeral may carry a sign, and the prefixes [0x], [0o]
    and [0b] select radix 16, 8 and 2. *)
Definition BigInt_of_string (s : string) : result Z :=
  match trim (list_ascii_of_string s) with
  | [] => Ok 0
  | "0" :: "x" :: ds | "0" :: "X" :: ds => digits_value 16 ds
  | "0" :: "o" :: ds | "0" :: "O" :: ds => digits_value 8 ds
  | "0" :: "b" :: ds | "0" :: "B" :: ds => digits_value 2 ds
  | "+" :: ds => digits_value 10 ds
  | "-" :: ds => v <- digits_value 10 ds ;; Ok (- v)
  | ds => digits_value 10 ds
  end%char.

(** ** [computeConstantTerm] (node.js lines 79-108) *)

(** [arr.slice(0, k)]: a negative [k] counts from the end. *)
Definition slice0 {A : Type} (arr : list A) (k : Z) : list A :=
  let len := Z.of_nat (List.length arr) in
  let final := if k <? 0 then Z.max (len + k) 0 else Z.min k len in
  firstn (Z.to_nat final) arr.

(** [arr[i]] followed by a property read: [undefined] throws. *)
Definition get {A : Type} (arr : list A) (i : nat) : result A :=
  match nth_error arr i with
  | Some a => Ok a
  | None => Throw TypeError
  end.

(** The arrow function of lines 85-88. *)
Definition decode_entry (e : string * Share) : result Point.t :=
  x <- BigInt_of_string (fst e) ;;
  y <- parseBigInt (value (snd e)) (base (snd e)) ;;
  Ok (Point.mk x y).

(** Lines 84-88: [Object.entries(pointsRaw).map(...)] decodes every entry,
    in enumeration order. *)
Definition decoded_entries (testcase : TestCase) : result (list Point.t) :=
  map_result decode_entry (Object_entries (pointsRaw testcase)).

(** Lines 84-89: the decoded array is then cut to [k]. *)
Definition extract_entries (testcase : TestCase) : result (list Point.t) :=
  all <- decoded_entries testcase ;;
  Ok (slice0 all (keys_k testcase)).

(** Integers [0 <= i < k], the values the loop counters take. *)
Definition range (k : Z) : list nat := seq 0 (Z.to_nat k).

(** Lines 96-101: one turn of the inner loop, for the counter [j]. *)
Definition basis_body (entries : list Point.t) (i : nat) (xi : Z)
  (j : nat) (Li : Rational.t) : result Rational.t :=
  if (j =? i)%nat then Ok Li
  else
    ej <- get entries j ;;
    f <- Rational.new (- Point.x ej) (xi - Point.x ej) ;;
    Rational.multiply Li f.

(** Lines 95-101: the basis value [Li] for index [i]. *)
Definition basis (entries : list Point.t) (k : Z) (i : nat) (xi : Z)
  : result Rational.t :=
  Li <- Rational.new 1 1 ;;
  for_each (range k) (basis_body entries i xi) Li.

(** Lines 93-104: one turn of the outer loop, for the counter [i]. *)
Definition sum_body (entries : list Point.t) (k : Z)
  (i : nat) (c : Rational.t) : result Rational.t :=
  ei <- get entries i ;;
  Li <- basis entries k i (Point.x ei) ;;
  yi <- Rational.new (Point.y ei) 1 ;;
  t <- Rational.multiply Li yi ;;
  Rational.add c t.

(** Lines 91-107: Lagrange interpolation at 0 over [entries]. *)
Definition reconstruct (entries : list Point.t) (k : Z) : result Z :=
  c <- Rational.new 0 1 ;;
  c <- for_each (range k) (sum_body entries k) c ;;
  Rational.toBigInt c.

Definition computeConstantTerm (testcase : TestCase) : result Z :=
  entries <- extract_entries testcase ;;
  reconstruct entries (keys_k testcase).

(** ** Reference notions the theorems are stated with *)

(** The invariant of the data model: positive denominator, lowest terms. *)
Definition canonical (r : Rational.t) : Prop :=
  0 < Rational.d r /\ Z.gcd (Z.abs (Rational.n r)) (Rational.d r) = 1.

(** The rational number a [Rational] stands for. *)
Definition Q_of (r : Rational.t) : Q :=
  (inject_Z (Rational.n r) / inject_Z (Rational.d r))%Q.

(** The factor [(-xj) / (xi - xj)] of a Lagrange basis value at 0. *)
Definition factor (xi xj : Z) : Q :=
  (inject_Z (- xj) / inject_Z (xi - xj))%Q.

(** Product of the factors over [xs], whose elements sit at the positions
    [s], [s + 1], ...; position [i] is left out. *)
Fixpoint weight_at (i : nat) (xi : Z) (s : nat) (xs : list Z) : Q :=
  match xs with
  | [] => 1%Q
  | xj :: xs' =>
      if (s =? i)%nat then weight_at i xi (S s) xs'
      else (factor xi xj * weight_at i xi (S s) xs')%Q
  end.

(** The sum of [L_i * y_i] over the rows [post], which sit at the
    positions [s], [s + 1], ... of [entries]. *)
Fixpoint lagrange_rows (entries : list Point.t) (s : nat)
  (post : list Point.t) : Q :=
  match post with
  | [] => 0%Q
  | e :: post' =>
      (weight_at s (Point.x e) 0 (map Point.x entries) * inject_Z (Point.y e)
       + lagrange_rows entries (S s) post')%Q
  end.

(** The same product with the node itself left out by value: for pairwise
    different nodes this is the Lagrange basis value at 0. *)
Fixpoint weight (a : Z) (xs : list Z) : Q :=
  match xs with
  | [] => 1%Q
  | xj :: xs' =>
      if xj =? a then weight a xs' else (factor a xj * weight a xs')%Q
  end.

Fixpoint sumQ {A : Type} (F : A -> Q) (l : list A) : Q :=
  match l with
  | [] => 0%Q
  | a :: l' => (F a + sumQ F l')%Q
  end.

(** Lagrange's formula at 0 for the points [pts]. *)
Definition lagrange0 (pts : list Point.t) : Q :=
  sumQ (fun p => weight (Point.x p) (map Point.x pts) * inject_Z (Point.y p))%Q
       pts.

(** Some entry of [post] (positions [s], [s + 1], ...) other than the one
    at position [i] has x-coordinate [xi]. *)
Definition clash_in (post : list Point.t) (s i : nat) (xi : Z) : Prop :=
  exists j e, nth_error post j = Some e /\ (s + j)%nat <> i /\ Point.x e = xi.

(** Some row of [post] shares its x-coordinate with another entry. *)
Definition rows_clash (entries post : list Point.t) (s : nat) : Prop :=
  exists i e, nth_error post i = Some e
              /\ clash_in entries 0 (s + i)%nat (Point.x e).

(** Lagrange's formula at 0 for the nodes [xs] and the values [g]. *)
Definition lagrangeQ (g : Z -> Q) (xs : list Z) : Q :=
  sumQ (fun a => weight a xs * g a)%Q xs.

(** A polynomial with integer coefficients, constant term first; a list of
    [k] coefficients is a polynomial of degree below [k]. *)
Fixpoint eval_poly (cs : list Z) (t : Z) : Z :=
  match cs with
  | [] => 0
  | c :: cs' => c + t * eval_poly cs' t
  end.

(** The points obtained by sampling the polynomial at the nodes [xs]. *)
Definition sample (cs : list Z) (xs : list Z) : list Point.t :=
  map (fun a => Point.mk a (eval_poly cs a)) xs.

(** Quotient of the polynomial by [t - a] (synthetic division). *)
Fixpoint quotient (cs : list Z) (a : Z) : list Z :=
  match cs with
  | [] => []
  | _ :: cs' =>
      match cs' with
      | [] => []
      | _ :: _ => eval_poly cs' a :: quotient cs' a
      end
  end.

(** *** The digit parser, in the words of the specification *)

Definition lower_digits : list ascii :=
  list_ascii_of_string "0123456789abcdefghijklmnopqrstuvwxyz".

Definition upper_digits : list ascii :=
  list_ascii_of_string "0123456789ABCDEFGHIJKLMNOPQRSTUVWXYZ".

Fixpoint index_of (ch : ascii) (l : list ascii) : option Z :=
  match l with
  | [] => None
  | c :: l' =>
      if Ascii.eqb c ch then Some 0 else option_map Z.succ (index_of ch l')
  end.

(** ['0']-['9'] stand for 0-9 and the letters, in either case, for
    10-35; no other character is a digit. *)
Definition digit_value (ch : ascii) : option Z :=
  match index_of ch lower_digits with
  | Some v => Some v
  | None => index_of ch upper_digits
  end.

(** Horner's rule, most significant digit first. *)
Definition horner (radix : Z) (digits : list Z) (acc : Z) : Z :=
  fold_left (fun acc digit => acc * radix + digit) digits acc.

(** A character the parser accepts in the given radix. *)
Definition acceptable (radix : Z) (ch : ascii) : Prop :=
  exists v, digit_value ch = Some v /\ v < radix.

(** *** The selection of points, in the words of the specification *)

(** The first [k] points in the order the labels were written. *)
Definition spec_entries (testcase : TestCase) : result (list Point.t) :=
  all <- map_result decode_entry (pointsRaw testcase) ;;
  Ok (slice0 all (keys_k testcase)).

Definition spec_computeConstantTerm (testcase : TestCase) : result Z :=
  entries <- spec_entries testcase ;;
  reconstruct entries (keys_k testcase).

(** *** Concrete test cases *)

Definition entry (label : string) (b : Z) (v : string) : string * Share :=
  (label, {| base := b; value := v |}).

(** k = 3 and the points (1,6), (2,7), (3,8) of f(x) = x + 5. *)
Definition case_linear : TestCase :=
  {| keys_k := 3;
     pointsRaw := [entry "1" 10 "6"; entry "2" 10 "7"; entry "3" 10 "8"] |}.

(** k = 2 and the points (1, a in base 16), (2, 14 in base 8) of
    f(x) = 2x + 8. *)
Definition case_mixed_radix : TestCase :=
  {| keys_k := 2;
     pointsRaw := [entry "1" 16 "a"; entry "2" 8 "14"] |}.

(** The labels are written in the order 2, 1. *)
Definition case_written_descending : TestCase :=
  {| keys_k := 1;
     pointsRaw := [entry "2" 10 "7"; entry "1" 10 "5"] |}.

(** The labels [1] and [01] denote the same x-coordinate. *)
Definition case_duplicate_x : TestCase :=
  {| keys_k := 2;
     pointsRaw := [entry "1" 10 "5"; entry "01" 10 "7"] |}.

(** Three points of f(x) = x + 5 followed by a point off the line. *)
Definition case_excess : TestCase :=
  {| keys_k := 3;
     pointsRaw := [entry "1" 10 "6"; entry "2" 10 "7"; entry "3" 10 "8";
                   entry "4" 10 "100"] |}.

(** The same points, the selected three written in another order. *)
Definition case_excess_permuted : TestCase :=
  {| keys_k := 3;
     pointsRaw := [entry "03" 10 "8"; entry "01" 10 "6"; entry "02" 10 "7";
                   entry "04" 10 "100"] |}.




(** The points with the x-coordinates [xs] and the values [f] gives. *)
Definition points_of (f : Z -> Z) (xs : list Z) : list Point.t :=
  map (fun a => Point.mk a (f a)) xs.

(** k = 1, a first entry that decodes and a later one that does not. *)
Definition case_bad_trailing : TestCase :=
  {| keys_k := 1;
     pointsRaw := [entry "1" 10 "5"; entry "2" 10 "5g"] |}.

(** k = 3 with two entries only. *)
Definition case_too_few : TestCase :=
  {| keys_k := 3;
     pointsRaw := [entry "1" 10 "6"; entry "2" 10 "7"] |}.

(** k = 2 and the points (1, 1), (3, 2): the line through them meets the
    axis at 1/2. *)
Definition case_half : TestCase :=
  {| keys_k := 2;
     pointsRaw := [entry "1" 10 "1"; entry "3" 10 "2"] |}.

(** k = 3 with the label 0 among the points. *)
Definition case_node_zero : TestCase :=
  {| keys_k := 3;
     pointsRaw := [entry "5" 10 "11"; entry "0" 10 "42"; entry "9" 10 "3"] |}.

(** The lower-case character that stands for a digit value. *)
Definition char_of_digit (v : Z) : ascii :=
  nth (Z.to_nat v) lower_digits "0"%char.

(** Order of two indexed properties by their numeric index. *)
Definition index_le {V : Type} (a b : Z * (string * V)) : Prop :=
  fst a <= fst b.

(** Pairwise difference of the elements of a literal list. *)
Ltac prove_NoDup :=
  repeat (constructor; [cbn; intuition discriminate|]); constructor.

(** * Properties *)

(** ** [gcd] *)

Lemma gcd_loop_spec (a b : Z) :
  0 <= a -> 0 <= b -> gcd_loop a b = Z.gcd a b.
Proof.
  funelim (gcd_loop a b); intros Ha Hb.
  - subst b. rewrite Z.gcd_0_r. lia.
  - match goal with IH : _ -> _ -> gcd_loop _ _ = Z.gcd _ _ |- _ =>
      rewrite IH by (try apply Z.rem_nonneg; lia) end.
    rewrite (Z.gcd_comm b), Z.gcd_rem by assumption. apply Z.gcd_comm.
Qed.

Lemma gcd_spec (a b : Z) : gcd a b = Z.gcd a b.
Proof.
  unfold gcd.
  destruct (Z.ltb_spec a 0), (Z.ltb_spec b 0);
    rewrite gcd_loop_spec by lia;
    rewrite ?Z.gcd_opp_l, ?Z.gcd_opp_r; reflexivity.
Qed.

(** ** The [Rational] constructor and operations *)

Lemma inject_Z_nonzero (z : Z) : z <> 0 -> ~ (inject_Z z == 0)%Q.
Proof.
  intros Hz H. apply Hz. unfold Qeq in H. cbn in H. lia.
Qed.

Lemma Qdiv_inject_cross (a b c e : Z) :
  b <> 0 -> e <> 0 ->
  ((inject_Z a / inject_Z b == inject_Z c / inject_Z e)%Q <-> a * e = c * b).
Proof.
  intros Hb He.
  pose proof (inject_Z_nonzero b Hb) as Hb'.
  pose proof (inject_Z_nonzero e He) as He'.
  split; intros H.
  - apply inject_Z_injective. rewrite !inject_Z_mult.
    assert (inject_Z a == inject_Z c / inject_Z e * inject_Z b)%Q as ->.
    { rewrite <- H. field. assumption. }
    field. assumption.
  - assert (inject_Z a * inject_Z e == inject_Z c * inject_Z b)%Q as H'.
    { rewrite <- !inject_Z_mult, H. reflexivity. }
    apply (Qmult_inj_r _ _ (inject_Z b * inject_Z e)%Q).
    + intros E. apply Qmult_integral in E. tauto.
    + transitivity (inject_Z a * inject_Z e)%Q; [field; assumption|].
      rewrite H'. field. assumption.
Qed.

(** Positive reduced pair: what the constructor computes from a positive
    denominator. *)
Lemma reduce_positive (a b : Z) :
  0 < b ->
  let g := Z.gcd a b in
  0 < b ÷ g /\ Z.gcd (Z.abs (a ÷ g)) (b ÷ g) = 1 /\ (a ÷ g) * b = a * (b ÷ g).
Proof.
  intros Hb g.
  assert (0 < g) as Hg.
  { pose proof (Z.gcd_nonneg a b). assert (g <> 0); [|subst g; lia].
    intros E. apply Z.gcd_eq_0_r in E. lia. }
  assert (Z.gcd (a ÷ g) (b ÷ g) = 1) as Hred
    by (apply Z.gcd_quot_gcd; [lia | reflexivity]).
  destruct (Z.gcd_divide_l a b) as [qa Ha], (Z.gcd_divide_r a b) as [qb Hbq].
  fold g in Ha, Hbq. clearbody g.
  assert (a ÷ g = qa) as Ea by (rewrite Ha; apply Z.quot_mul; lia).
  assert (b ÷ g = qb) as Eb by (rewrite Hbq; apply Z.quot_mul; lia).
  rewrite Z.gcd_abs_l, Ea, Eb in *. repeat split; [nia | assumption | nia].
Qed.

Lemma new_spec (numerator denominator : Z) :
  denominator <> 0 ->
  exists r, Rational.new numerator denominator = Ok r
            /\ canonical r
            /\ Rational.n r * denominator = numerator * Rational.d r.
Proof.
  intros Hd. unfold Rational.new.
  destruct (Z.eqb_spec denominator 0) as [|_]; [contradiction|].
  destruct (Z.ltb_spec denominator 0) as [Hneg|Hpos]; rewrite gcd_spec.
  - destruct (reduce_positive (- numerator) (- denominator)) as (H1 & H2 & H3);
      [lia|].
    eexists; split; [reflexivity|]. unfold canonical; cbn.
    repeat split; try assumption. lia.
  - destruct (reduce_positive numerator denominator) as (H1 & H2 & H3); [lia|].
    eexists; split; [reflexivity|]. unfold canonical; cbn.
    repeat split; assumption.
Qed.

Lemma new_Q (numerator denominator : Z) :
  denominator <> 0 ->
  exists r, Rational.new numerator denominator = Ok r
            /\ canonical r
            /\ (Q_of r == inject_Z numerator / inject_Z denominator)%Q.
Proof.
  intros Hd. destruct (new_spec numerator denominator Hd) as (r & E & Hc & Hx).
  exists r. repeat split; try assumption; try apply Hc.
  unfold Q_of. apply Qdiv_inject_cross; try assumption.
  destruct Hc. lia.
Qed.

Lemma new_zero_denominator (numerator : Z) :
  Rational.new numerator 0 = Throw DivisionByZero.
Proof. reflexivity. Qed.

Lemma canonical_nonzero (r : Rational.t) :
  canonical r -> ~ (inject_Z (Rational.d r) == 0)%Q.
Proof. intros [Hd _]. apply inject_Z_nonzero. lia. Qed.

Lemma multiply_Q (a b : Rational.t) :
  canonical a -> canonical b ->
  exists r, Rational.multiply a b = Ok r /\ canonical r
            /\ (Q_of r == Q_of a * Q_of b)%Q.
Proof.
  intros Ha Hb. unfold Rational.multiply.
  destruct (new_Q (Rational.n a * Rational.n b) (Rational.d a * Rational.d b))
    as (r & E & Hc & Hq).
  { destruct Ha, Hb. nia. }
  exists r. repeat split; try assumption; try apply Hc.
  rewrite Hq, !inject_Z_mult. unfold Q_of.
  field. split; apply canonical_nonzero; assumption.
Qed.

Lemma add_Q (a b : Rational.t) :
  canonical a -> canonical b ->
  exists r, Rational.add a b = Ok r /\ canonical r
            /\ (Q_of r == Q_of a + Q_of b)%Q.
Proof.
  intros Ha Hb. unfold Rational.add.
  destruct (new_Q (Rational.n a * Rational.d b + Rational.n b * Rational.d a)
              (Rational.d a * Rational.d b)) as (r & E & Hc & Hq).
  { destruct Ha, Hb. nia. }
  exists r. repeat split; try assumption; try apply Hc.
  rewrite Hq, inject_Z_plus, !inject_Z_mult. unfold Q_of.
  field. split; apply canonical_nonzero; assumption.
Qed.

(** A rational number has one canonical representation. *)
Lemma canonical_unique (r1 r2 : Rational.t) :
  canonical r1 -> canonical r2 -> (Q_of r1 == Q_of r2)%Q -> r1 = r2.
Proof.
  destruct r1 as [n1 d1], r2 as [n2 d2]. unfold canonical, Q_of; cbn.
  rewrite !Z.gcd_abs_l. intros [Hd1 Hg1] [Hd2 Hg2] H.
  assert (d1 <> 0) as Hz1 by lia. assert (d2 <> 0) as Hz2 by lia.
  apply (proj1 (Qdiv_inject_cross n1 d1 n2 d2 Hz1 Hz2)) in H.
  assert ((d1 | d2)) as H12.
  { apply Z.gauss with n1; [|rewrite Z.gcd_comm; assumption].
    exists n2. lia. }
  assert ((d2 | d1)) as H21.
  { apply Z.gauss with n2; [|rewrite Z.gcd_comm; assumption].
    exists n1. lia. }
  assert (d1 = d2) by (apply Z.divide_antisym_nonneg; solve [lia | assumption]).
  subst d2. f_equal. apply (proj1 (Z.mul_cancel_r n1 n2 d1 Hz1)). exact H.
Qed.

Lemma canonical_integer (r : Rational.t) (v : Z) :
  canonical r -> (Q_of r == inject_Z v)%Q -> r = Rational.mk v 1.
Proof.
  intros Hc H. apply canonical_unique; try assumption.
  - unfold canonical; cbn. split; [lia | apply Z.gcd_1_r].
  - rewrite H. unfold Q_of; cbn. field.
Qed.

Lemma canonical_one : canonical (Rational.mk 1 1).
Proof. unfold canonical; cbn. split; [lia | reflexivity]. Qed.

Lemma canonical_zero : canonical (Rational.mk 0 1).
Proof. unfold canonical; cbn. split; [lia | reflexivity]. Qed.

(** ** The loops of [computeConstantTerm] *)

Lemma new_one : Rational.new 1 1 = Ok (Rational.mk 1 1).
Proof. reflexivity. Qed.

Lemma new_zero : Rational.new 0 1 = Ok (Rational.mk 0 1).
Proof. reflexivity. Qed.

Lemma get_middle {A : Type} (pre post : list A) (a : A) :
  get (pre ++ a :: post) (List.length pre) = Ok a.
Proof.
  unfold get. rewrite nth_error_app2 by lia. now rewrite Nat.sub_diag.
Qed.

Lemma clash_in_cons (e : Point.t) (post : list Point.t) (s i : nat) (xi : Z) :
  clash_in (e :: post) s i xi <->
  (s <> i /\ Point.x e = xi) \/ clash_in post (S s) i xi.
Proof.
  unfold clash_in. split.
  - intros ([|j] & e' & Hn & Hj & Hx); cbn in Hn.
    + injection Hn as <-. left. split; [lia | assumption].
    + right. exists j, e'. repeat split; try assumption. lia.
  - intros [[Hs Hx] | (j & e' & Hn & Hj & Hx)].
    + exists 0%nat, e. repeat split; try assumption. lia.
    + exists (S j), e'. repeat split; try assumption. lia.
Qed.

Lemma clash_in_nil (s i : nat) (xi : Z) : ~ clash_in [] s i xi.
Proof. intros ([|j] & e & Hn & _); discriminate. Qed.

(** The inner loop over the entries [post]: it multiplies the factors of
    the positions other than [i] into [Li], or stops with
    [DivisionByZero] at the first entry whose x-coordinate is [xi]. *)
Lemma basis_loop (entries : list Point.t) (i : nat) (xi : Z) :
  forall (post pre : list Point.t) (s : nat) (Li : Rational.t),
    entries = pre ++ post -> s = List.length pre -> canonical Li ->
    (exists Li',
        for_each (seq s (List.length post)) (basis_body entries i xi) Li = Ok Li'
        /\ canonical Li'
        /\ (Q_of Li' == Q_of Li * weight_at i xi s (map Point.x post))%Q
        /\ ~ clash_in post s i xi)
    \/ (for_each (seq s (List.length post)) (basis_body entries i xi) Li
        = Throw DivisionByZero
        /\ clash_in post s i xi).
Proof.
  induction post as [|e post IH]; intros pre s Li HE Hs HLi.
  - left. exists Li. cbn [List.length seq for_each map weight_at].
    split; [reflexivity | split; [assumption | split]].
    + ring.
    + apply clash_in_nil.
  - assert (entries = (pre ++ [e]) ++ post) as HE'
        by (rewrite <- app_assoc; exact HE).
    assert (S s = List.length (pre ++ [e])) as Hs'
        by (rewrite length_app; cbn; lia).
    cbn [List.length seq for_each map weight_at]. unfold basis_body at 1 3.
    destruct (Nat.eqb_spec s i) as [Hsi|Hsi]; cbn [bind].
    + destruct (IH _ _ Li HE' Hs' HLi) as [(Li' & E & Hc & Hq & Hn)|[E Hcl]].
      * left. exists Li'. split; [assumption | split; [assumption | split]].
        -- exact Hq.
        -- rewrite clash_in_cons. tauto.
      * right. split; [assumption|]. rewrite clash_in_cons. tauto.
    + rewrite HE, Hs, get_middle. cbn [bind].
      destruct (Z.eq_dec (xi - Point.x e) 0) as [Hz|Hz].
      * right. rewrite Hz, new_zero_denominator. split; [reflexivity|].
        rewrite clash_in_cons. left. split; [congruence | lia].
      * destruct (new_Q (- Point.x e) _ Hz) as (f & Ef & Hf & Hqf).
        rewrite Ef. cbn [bind].
        destruct (multiply_Q Li f HLi Hf) as (Li2 & E2 & Hc2 & Hq2).
        rewrite E2. cbn [bind]. rewrite <- Hs, <- HE.
        destruct (IH _ _ Li2 HE' Hs' Hc2) as [(Li' & E & Hc & Hq & Hn)|[E Hcl]].
        -- left. exists Li'. split; [assumption | split; [assumption | split]].
           ++ rewrite Hq, Hq2, Hqf. unfold factor. ring.
           ++ rewrite clash_in_cons. intros [[_ Hx]|H]; [lia | tauto].
        -- right. split; [assumption|]. rewrite clash_in_cons. tauto.
Qed.

Lemma rows_clash_cons (entries : list Point.t) (e : Point.t)
  (post : list Point.t) (s : nat) :
  rows_clash entries (e :: post) s <->
  clash_in entries 0 s (Point.x e) \/ rows_clash entries post (S s).
Proof.
  unfold rows_clash. split.
  - intros ([|i] & e' & Hn & Hc); cbn in Hn.
    + injection Hn as <-. left. now rewrite Nat.add_0_r in Hc.
    + right. exists i, e'. split; [assumption|].
      now replace (S s + i)%nat with (s + S i)%nat by lia.
  - intros [Hc | (i & e' & Hn & Hc)].
    + exists 0%nat, e. split; [reflexivity|]. now rewrite Nat.add_0_r.
    + exists (S i), e'. split; [assumption|].
      now replace (s + S i)%nat with (S s + i)%nat by lia.
Qed.

Lemma rows_clash_nil (entries : list Point.t) (s : nat) :
  ~ rows_clash entries [] s.
Proof. intros ([|i] & e & Hn & _); discriminate. Qed.

Lemma Q_of_one : (Q_of (Rational.mk 1 1) == 1)%Q.
Proof. reflexivity. Qed.

Lemma Q_of_zero : (Q_of (Rational.mk 0 1) == 0)%Q.
Proof. reflexivity. Qed.

Lemma Qdiv_inject_one (z : Z) : (inject_Z z / inject_Z 1 == inject_Z z)%Q.
Proof. change (inject_Z 1) with 1%Q. field. Qed.

(** The basis value of row [i]: the product over the other positions, or
    [DivisionByZero] when another entry has the same x-coordinate. *)
Lemma basis_cases (entries : list Point.t) (k : Z) (i : nat) (xi : Z) :
  List.length entries = Z.to_nat k ->
  (exists Li,
      basis entries k i xi = Ok Li
      /\ canonical Li
      /\ (Q_of Li == weight_at i xi 0 (map Point.x entries))%Q
      /\ ~ clash_in entries 0 i xi)
  \/ (basis entries k i xi = Throw DivisionByZero /\ clash_in entries 0 i xi).
Proof.
  intros Hk. unfold basis, range. rewrite new_one, <- Hk. cbn [bind].
  destruct (basis_loop entries i xi entries [] 0%nat (Rational.mk 1 1)
              eq_refl eq_refl canonical_one)
    as [(Li & E & Hc & Hq & Hn)|[E Hcl]].
  - left. exists Li. split; [assumption | split; [assumption | split]].
    + rewrite Hq, Q_of_one. ring.
    + assumption.
  - right. split; assumption.
Qed.

(** The outer loop over the rows [post]: it adds [L_i * y_i] for each
    row into [c], or stops with [DivisionByZero] at the first row whose
    x-coordinate occurs a second time. *)
Lemma sum_loop (entries : list Point.t) (k : Z) :
  List.length entries = Z.to_nat k ->
  forall (post pre : list Point.t) (s : nat) (c : Rational.t),
    entries = pre ++ post -> s = List.length pre -> canonical c ->
    (exists c',
        for_each (seq s (List.length post)) (sum_body entries k) c = Ok c'
        /\ canonical c'
        /\ (Q_of c' == Q_of c + lagrange_rows entries s post)%Q
        /\ ~ rows_clash entries post s)
    \/ (for_each (seq s (List.length post)) (sum_body entries k) c
        = Throw DivisionByZero
        /\ rows_clash entries post s).
Proof.
  intros Hk.
  induction post as [|e post IH]; intros pre s c HE Hs Hc.
  - left. exists c. cbn [List.length seq for_each lagrange_rows].
    split; [reflexivity | split; [assumption | split]].
    + ring.
    + apply rows_clash_nil.
  - assert (entries = (pre ++ [e]) ++ post) as HE'
        by (rewrite <- app_assoc; exact HE).
    assert (S s = List.length (pre ++ [e])) as Hs'
        by (rewrite length_app; cbn; lia).
    assert (get entries s = Ok e) as Hget
        by (rewrite HE, Hs; apply get_middle).
    cbn [List.length seq for_each lagrange_rows]. unfold sum_body at 1 3.
    rewrite Hget. cbn [bind].
    destruct (basis_cases entries k s (Point.x e) Hk)
      as [(Li & EL & HcL & HqL & HnL)|[EL HclL]]; rewrite EL; cbn [bind].
    + destruct (new_Q (Point.y e) 1) as (yi & Ey & Hcy & Hqy); [lia|].
      rewrite Ey. cbn [bind].
      destruct (multiply_Q Li yi HcL Hcy) as (t & Et & Hct & Hqt).
      rewrite Et. cbn [bind].
      destruct (add_Q c t Hc Hct) as (c2 & E2 & Hc2 & Hq2).
      rewrite E2.
      destruct (IH _ _ c2 HE' Hs' Hc2) as [(c' & E & Hc' & Hq & Hn)|[E Hcl]].
      * left. exists c'. split; [assumption | split; [assumption | split]].
        -- rewrite Hq, Hq2, Hqt, HqL, Hqy, Qdiv_inject_one. ring.
        -- rewrite rows_clash_cons. tauto.
      * right. split; [assumption|]. rewrite rows_clash_cons. tauto.
    + right. split; [reflexivity|]. rewrite rows_clash_cons. tauto.
Qed.

(** [reconstruct] on exactly [k] entries: the canonical fraction of the
    Lagrange sum narrowed to an integer, or [DivisionByZero]. *)
Lemma reconstruct_cases (entries : list Point.t) (k : Z) :
  List.length entries = Z.to_nat k ->
  (exists c,
      reconstruct entries k = Rational.toBigInt c
      /\ canonical c
      /\ (Q_of c == lagrange_rows entries 0 entries)%Q
      /\ ~ rows_clash entries entries 0)
  \/ (reconstruct entries k = Throw DivisionByZero
      /\ rows_clash entries entries 0).
Proof.
  intros Hk. unfold reconstruct, range. rewrite new_zero, <- Hk. cbn [bind].
  destruct (sum_loop entries k Hk entries [] 0%nat (Rational.mk 0 1)
              eq_refl eq_refl canonical_zero)
    as [(c & E & Hc & Hq & Hn)|[E Hcl]]; rewrite E; cbn [bind].
  - left. exists c. split; [reflexivity | split; [assumption | split]].
    + rewrite Hq, Q_of_zero. ring.
    + assumption.
  - right. split; [reflexivity | assumption].
Qed.

(** ** Clashes and repeated x-coordinates *)

Lemma no_clash_NoDup (entries : list Point.t) :
  ~ rows_clash entries entries 0 -> NoDup (map Point.x entries).
Proof.
  intros Hn. apply NoDup_nth_error. intros i j Hi Heq.
  destruct (Nat.eq_dec i j) as [|Hij]; [assumption|]. exfalso. apply Hn.
  rewrite length_map in Hi. rewrite !nth_error_map in Heq.
  destruct (nth_error entries i) as [e|] eqn:Ei;
    [|apply nth_error_None in Ei; lia].
  destruct (nth_error entries j) as [e'|] eqn:Ej; [|discriminate].
  injection Heq as Hx.
  exists i, e. split; [assumption|]. exists j, e'.
  split; [assumption | split; [lia | congruence]].
Qed.

Lemma clash_not_NoDup (entries : list Point.t) :
  rows_clash entries entries 0 -> ~ NoDup (map Point.x entries).
Proof.
  intros (i & e & Hi & j & e' & Hj & Hne & Hx) Hnd.
  rewrite NoDup_nth_error in Hnd. apply Hne. cbn. symmetry. apply Hnd.
  - rewrite length_map. apply nth_error_Some. congruence.
  - rewrite !nth_error_map, Hi, Hj. cbn. congruence.
Qed.

(** ** From positions to values *)

Lemma weight_at_weight (i : nat) (a : Z) :
  forall (xs : list Z) (s : nat),
    (forall j z, nth_error xs j = Some z -> ((s + j)%nat = i <-> z = a)) ->
    weight_at i a s xs = weight a xs.
Proof.
  induction xs as [|z xs IH]; intros s H; [reflexivity|].
  cbn [weight_at weight].
  assert (weight_at i a (S s) xs = weight a xs) as ->.
  { apply IH. intros j z' Hj. rewrite <- (H (S j) z' Hj).
    split; intros; lia. }
  specialize (H 0%nat z eq_refl). rewrite Nat.add_0_r in H.
  destruct (Nat.eqb_spec s i), (Z.eqb_spec z a); tauto.
Qed.

Lemma sumQ_ext_in {A : Type} (F G : A -> Q) (l : list A) :
  (forall a, In a l -> (F a == G a)%Q) -> (sumQ F l == sumQ G l)%Q.
Proof.
  induction l as [|a l IH]; intros H; cbn [sumQ]; [reflexivity|].
  rewrite (H a (or_introl eq_refl)), IH; [reflexivity|].
  intros b Hb. apply H. now right.
Qed.

Lemma sumQ_map {A B : Type} (F : B -> Q) (g : A -> B) (l : list A) :
  sumQ F (map g l) = sumQ (fun a => F (g a)) l.
Proof. induction l as [|a l IH]; cbn; [|rewrite IH]; reflexivity. Qed.

Lemma sumQ_linear {A : Type} (F G : A -> Q) (u v : Q) (l : list A) :
  (sumQ (fun a => u * F a + v * G a) l == u * sumQ F l + v * sumQ G l)%Q.
Proof.
  induction l as [|a l IH]; cbn [sumQ]; [ring|]. rewrite IH. ring.
Qed.

Lemma sumQ_Permutation {A : Type} (F : A -> Q) (l l' : list A) :
  Permutation l l' -> (sumQ F l == sumQ F l')%Q.
Proof.
  induction 1; cbn [sumQ].
  - reflexivity.
  - rewrite IHPermutation. reflexivity.
  - ring.
  - etransitivity; eassumption.
Qed.

Lemma weight_Permutation (a : Z) (xs xs' : list Z) :
  Permutation xs xs' -> (weight a xs == weight a xs')%Q.
Proof.
  induction 1; cbn [weight].
  - reflexivity.
  - destruct (x =? a); rewrite IHPermutation; reflexivity.
  - destruct (x =? a), (y =? a); ring.
  - etransitivity; eassumption.
Qed.

(** On pairwise different x-coordinates the sum the loops compute is
    Lagrange's formula. *)
Lemma lagrange_rows_lagrange0 (entries : list Point.t) :
  NoDup (map Point.x entries) ->
  lagrange_rows entries 0 entries = lagrange0 entries.
Proof.
  intros Hnd. unfold lagrange0.
  enough (forall post pre s,
             entries = pre ++ post -> s = List.length pre ->
             lagrange_rows entries s post
             = sumQ (fun p => weight (Point.x p) (map Point.x entries)
                              * inject_Z (Point.y p))%Q post) as H
      by (apply (H entries [] 0%nat); reflexivity).
  induction post as [|e post IH]; intros pre s HE Hs; [reflexivity|].
  cbn [lagrange_rows sumQ].
  rewrite (IH (pre ++ [e]) (S s));
    [| rewrite <- app_assoc; exact HE | rewrite length_app; cbn; lia].
  f_equal. f_equal. apply weight_at_weight. intros j z Hj. cbn [Nat.add].
  assert (nth_error (map Point.x entries) s = Some (Point.x e)) as Hse.
  { rewrite nth_error_map, HE, Hs, nth_error_app2 by lia.
    now rewrite Nat.sub_diag. }
  split.
  - intros ->. congruence.
  - intros ->. rewrite NoDup_nth_error in Hnd. apply Hnd.
    + apply nth_error_Some. congruence.
    + congruence.
Qed.

Lemma lagrange0_Permutation (pts pts' : list Point.t) :
  Permutation pts pts' -> (lagrange0 pts == lagrange0 pts')%Q.
Proof.
  intros HP. unfold lagrange0.
  rewrite (sumQ_Permutation _ pts pts' HP).
  apply sumQ_ext_in. intros p _.
  rewrite (weight_Permutation _ _ _ (Permutation_map Point.x HP)).
  reflexivity.
Qed.

(** ** Lagrange's formula recovers the constant term *)

Lemma factor_Q (xi xj : Z) :
  (factor xi xj == (- inject_Z xj) / (inject_Z xi - inject_Z xj))%Q.
Proof.
  unfold factor, Z.sub. rewrite inject_Z_plus, !inject_Z_opp. reflexivity.
Qed.

Lemma inject_Z_diff_nonzero (a b : Z) :
  a <> b -> ~ (inject_Z a - inject_Z b == 0)%Q.
Proof.
  intros H E. apply H. apply inject_Z_injective.
  setoid_replace (inject_Z a) with (inject_Z a - inject_Z b + inject_Z b)%Q
    by ring.
  rewrite E. ring.
Qed.

Lemma Qplus_move_l (u s t : Q) : (u + s == t)%Q -> (s == t - u)%Q.
Proof. intros <-. ring. Qed.

Lemma lagrangeQ_cons (g : Z -> Q) (x0 : Z) (rest : list Z) :
  ~ In x0 rest ->
  (lagrangeQ g (x0 :: rest)
   == weight x0 rest * g x0
      + sumQ (fun a => factor a x0 * (weight a rest * g a)) rest)%Q.
Proof.
  intros Hn. unfold lagrangeQ. cbn [sumQ weight]. rewrite Z.eqb_refl.
  apply Qplus_comp; [reflexivity|]. apply sumQ_ext_in. intros a Ha.
  destruct (Z.eqb_spec x0 a) as [->|_]; [contradiction|]. ring.
Qed.

(** The basis values at 0 sum to 1 (Neville's recurrence on the first two
    nodes). *)
Lemma lagrangeQ_one :
  forall (m : nat) (xs : list Z),
    List.length xs = S m -> NoDup xs -> (lagrangeQ (fun _ => 1) xs == 1)%Q.
Proof.
  induction m as [|m IH]; intros xs Hl Hnd.
  - destruct xs as [|a [|b rest]]; try discriminate.
    unfold lagrangeQ. cbn [sumQ weight]. rewrite Z.eqb_refl. ring.
  - destruct xs as [|a [|b rest]]; try discriminate.
    inversion Hnd as [|? ? Ha Hnd']; subst.
    inversion Hnd' as [|? ? Hb Hr]; subst.
    assert (a <> b) as Hab by (intros ->; apply Ha; left; reflexivity).
    assert (~ In a rest) as Har by (intros ?; apply Ha; now right).
    assert (NoDup (a :: rest)) as Hnda by (constructor; assumption).
    injection Hl as Hl.
    pose proof (IH (a :: rest) (f_equal S Hl) Hnda) as IHa.
    pose proof (IH (b :: rest) (f_equal S Hl) Hnd') as IHb.
    rewrite lagrangeQ_cons in IHa, IHb by assumption.
    rewrite lagrangeQ_cons by assumption.
    cbn [sumQ weight]. rewrite Z.eqb_refl.
    destruct (Z.eqb_spec b a) as [E|_]; [congruence|].
    set (u := (inject_Z (- a) / (inject_Z b - inject_Z a))%Q).
    set (v := (inject_Z b / (inject_Z b - inject_Z a))%Q).
    rewrite (sumQ_ext_in _
               (fun c => u * (factor c b * (weight c rest * 1))
                         + v * (factor c a * (weight c rest * 1)))%Q).
    2:{ intros c Hc.
        assert (c <> a) as Hca by (intros ->; contradiction).
        assert (c <> b) as Hcb by (intros ->; contradiction).
        destruct (Z.eqb_spec b c) as [E|_]; [congruence|].
        subst u v. rewrite !factor_Q, !inject_Z_opp. field.
        repeat split; apply inject_Z_diff_nonzero; congruence. }
    rewrite sumQ_linear.
    assert (sumQ (fun c => factor c b * (weight c rest * 1)) rest
            == 1 - weight b rest * 1)%Q as ->
        by (apply Qplus_move_l; exact IHb).
    assert (sumQ (fun c => factor c a * (weight c rest * 1)) rest
            == 1 - weight a rest * 1)%Q as ->
        by (apply Qplus_move_l; exact IHa).
    subst u v. rewrite !factor_Q, !inject_Z_opp. field.
    split; apply inject_Z_diff_nonzero; congruence.
Qed.

Lemma eval_quotient (cs : list Z) (a t : Z) :
  eval_poly cs t = eval_poly cs a + (t - a) * eval_poly (quotient cs a) t.
Proof.
  induction cs as [|c cs IH]; [cbn; ring|].
  destruct cs as [|c' cs']; [cbn; ring|].
  change (quotient (c :: c' :: cs') a)
    with (eval_poly (c' :: cs') a :: quotient (c' :: cs') a).
  remember (c' :: cs') as f eqn:Ef. cbn [eval_poly]. rewrite IH. ring.
Qed.

Lemma quotient_length (cs : list Z) (a : Z) :
  List.length (quotient cs a) = pred (List.length cs).
Proof.
  induction cs as [|c cs IH]; [reflexivity|].
  destruct cs as [|c' cs']; [reflexivity|].
  change (quotient (c :: c' :: cs') a)
    with (eval_poly (c' :: cs') a :: quotient (c' :: cs') a).
  cbn [List.length pred] in *. now rewrite IH.
Qed.

(** Lagrange's formula at 0, over pairwise different nodes, returns the
    value at 0 of every polynomial with no more coefficients than nodes. *)
Lemma lagrangeQ_poly :
  forall (xs : list Z),
    NoDup xs ->
    forall (cs : list Z),
      (List.length cs <= List.length xs)%nat ->
      (lagrangeQ (fun a => inject_Z (eval_poly cs a)) xs
       == inject_Z (eval_poly cs 0))%Q.
Proof.
  induction xs as [|x0 rest IH]; intros Hnd cs Hl.
  - destruct cs; [reflexivity | cbn in Hl; lia].
  - inversion Hnd as [|? ? Hx0 Hnd']; subst.
    rewrite lagrangeQ_cons by assumption.
    pose proof (lagrangeQ_one (List.length rest) (x0 :: rest) eq_refl Hnd)
      as H1.
    rewrite lagrangeQ_cons in H1 by assumption.
    assert (List.length (quotient cs x0) <= List.length rest)%nat as Hlq
        by (rewrite quotient_length; cbn in Hl; lia).
    pose proof (IH Hnd' (quotient cs x0) Hlq) as Hq. unfold lagrangeQ in Hq.
    rewrite (sumQ_ext_in _
               (fun a => inject_Z (eval_poly cs x0)
                         * (factor a x0 * (weight a rest * 1))
                         + inject_Z (- x0)
                           * (weight a rest
                              * inject_Z (eval_poly (quotient cs x0) a)))%Q).
    2:{ intros a Ha.
        assert (a <> x0) as Hne by (intros ->; contradiction).
        rewrite (eval_quotient cs x0 a). unfold Z.sub.
        rewrite factor_Q, !inject_Z_plus, !inject_Z_mult, !inject_Z_plus,
          !inject_Z_opp.
        field. apply inject_Z_diff_nonzero; assumption. }
    rewrite sumQ_linear, Hq.
    assert (sumQ (fun a => factor a x0 * (weight a rest * 1)) rest
            == 1 - weight x0 rest * 1)%Q as ->
        by (apply Qplus_move_l; exact H1).
    rewrite (eval_quotient cs x0 0). unfold Z.sub.
    rewrite !inject_Z_plus, !inject_Z_mult, !inject_Z_plus, !inject_Z_opp.
    change (inject_Z 0) with 0%Q. ring.
Qed.

(** ** The [Rational] class: claims C4 and C5 *)

(** C4.  For every Rational [r], [toBigInt] fails with NonIntegralResult
    exactly when the denominator of [r] is not 1, and otherwise returns the
    numerator of [r]; it raises no other error, and a returned integer is
    the exact value of the fraction, never a rounded one. *)
Theorem toBigInt_narrowing (r : Rational.t) :
  (Rational.toBigInt r = Throw NonIntegralResult <-> Rational.d r <> 1)
  /\ (Rational.d r = 1 -> Rational.toBigInt r = Ok (Rational.n r))
  /\ (forall v, Rational.toBigInt r = Ok v ->
                v = Rational.n r /\ Rational.d r = 1
                /\ (Q_of r == inject_Z v)%Q)
  /\ (forall e, Rational.toBigInt r = Throw e -> e = NonIntegralResult).
Proof.
  unfold Rational.toBigInt.
  destruct (Z.eqb_spec (Rational.d r) 1) as [E|E]; cbn [negb].
  - split; [|split; [|split]].
    + split; [discriminate | contradiction].
    + reflexivity.
    + intros v [= <-]. split; [reflexivity | split; [assumption|]].
      unfold Q_of. rewrite E. apply Qdiv_inject_one.
    + discriminate.
  - split; [|split; [|split]].
    + split; intros _; [assumption | reflexivity].
    + contradiction.
    + discriminate.
    + now intros e [= <-].
Qed.

Lemma toBigInt_narrowing_witness :
  Rational.toBigInt (Rational.mk 5 1) = Ok 5.
Proof.
  apply (proj1 (proj2 (toBigInt_narrowing (Rational.mk 5 1)))). reflexivity.
Defined.

(** C5.  Every Rational produced by the constructor (with a nonzero
    denominator argument), or by [add] or [multiply] (on operands with
    nonzero denominators), has a positive denominator and is in lowest
    terms, and the value zero is represented as (0, 1). *)
Theorem reduction_invariant :
  (forall numerator denominator,
      denominator <> 0 ->
      exists r, Rational.new numerator denominator = Ok r /\ canonical r)
  /\ (forall a b,
         Rational.d a <> 0 -> Rational.d b <> 0 ->
         exists r, Rational.add a b = Ok r /\ canonical r)
  /\ (forall a b,
         Rational.d a <> 0 -> Rational.d b <> 0 ->
         exists r, Rational.multiply a b = Ok r /\ canonical r)
  /\ (forall denominator,
         denominator <> 0 ->
         Rational.new 0 denominator = Ok (Rational.mk 0 1))
  /\ (forall r, canonical r -> (Q_of r == 0)%Q -> r = Rational.mk 0 1).
Proof.
  split; [|split; [|split; [|split]]].
  - intros numerator denominator Hd.
    destruct (new_spec numerator denominator Hd) as (r & E & Hc & _).
    exists r. split; assumption.
  - intros a b Ha Hb. unfold Rational.add.
    destruct (new_spec
                (Rational.n a * Rational.d b + Rational.n b * Rational.d a)
                (Rational.d a * Rational.d b)) as (r & E & Hc & _).
    { apply Z.neq_mul_0. split; assumption. }
    exists r. split; assumption.
  - intros a b Ha Hb. unfold Rational.multiply.
    destruct (new_spec (Rational.n a * Rational.n b)
                (Rational.d a * Rational.d b)) as (r & E & Hc & _).
    { apply Z.neq_mul_0. split; assumption. }
    exists r. split; assumption.
  - intros denominator Hd.
    destruct (new_Q 0 denominator Hd) as (r & E & Hc & Hq).
    rewrite E. f_equal. apply canonical_integer; [assumption|].
    rewrite Hq. change (inject_Z 0) with 0%Q. field.
    apply inject_Z_nonzero. assumption.
  - intros r Hc Hq. apply canonical_integer; assumption.
Qed.

Lemma reduction_invariant_witness :
  exists r, Rational.new 6 (-4) = Ok r /\ canonical r.
Proof.
  apply (proj1 reduction_invariant 6 (-4)). discriminate.
Defined.

(** ** The digit parser: claims C6, C7 and C9 *)

(** The digit the source reads off a lower-cased character is the digit
    the character stands for. *)
Lemma digit_of_value (ch : ascii) :
  digit_of (toLowerCase_char ch)
  = match digit_value ch with
    | Some v => Ok v
    | None => Throw InvalidDigit
    end.
Proof.
  destruct ch as [[] [] [] [] [] [] [] []]; vm_compute; reflexivity.
Qed.

Lemma digit_value_range (ch : ascii) (v : Z) :
  digit_value ch = Some v -> 0 <= v < 36.
Proof.
  destruct ch as [[] [] [] [] [] [] [] []]; vm_compute;
    intros [= <-]; split; discriminate || reflexivity.
Qed.

Lemma parse_loop_step (ch : ascii) (rest : list ascii) (radix acc : Z) :
  parse_loop (toLowerCase (ch :: rest)) radix acc
  = match digit_value ch with
    | None => Throw InvalidDigit
    | Some v =>
        if v >=? radix then Throw DigitOutOfRange
        else parse_loop (toLowerCase rest) radix (acc * radix + v)
    end.
Proof.
  cbn [toLowerCase map parse_loop]. rewrite digit_of_value.
  destruct (digit_value ch); reflexivity.
Qed.

Lemma parse_loop_horner (radix : Z) :
  forall (chars : list ascii) (digits : list Z) (acc : Z),
    map digit_value chars = map Some digits ->
    Forall (fun digit => digit < radix) digits ->
    parse_loop (toLowerCase chars) radix acc = Ok (horner radix digits acc).
Proof.
  induction chars as [|ch chars IH]; intros [|v digits] acc Hm Hf;
    try discriminate; [reflexivity|].
  cbn [map] in Hm. injection Hm as Hv Hm. inversion Hf; subst.
  rewrite parse_loop_step, Hv.
  destruct (Z.geb_spec v radix); [lia|].
  unfold horner. cbn [fold_left]. apply IH; assumption.
Qed.

Lemma horner_nonneg (radix : Z) :
  0 <= radix ->
  forall (digits : list Z) (acc : Z),
    0 <= acc -> Forall (fun digit => 0 <= digit) digits ->
    0 <= horner radix digits acc.
Proof.
  intros Hr. induction digits as [|v digits IH]; intros acc Ha Hf;
    [assumption|].
  inversion Hf; subst. unfold horner. cbn [fold_left]. apply IH; [nia|assumption].
Qed.

Lemma digit_values_nonneg :
  forall (chars : list ascii) (digits : list Z),
    map digit_value chars = map Some digits ->
    Forall (fun digit => 0 <= digit) digits.
Proof.
  induction chars as [|ch chars IH]; intros [|v digits] Hm;
    try discriminate; constructor.
  - cbn [map] in Hm. injection Hm as Hv _.
    apply digit_value_range in Hv. lia.
  - cbn [map] in Hm. injection Hm as _ Hm. apply IH. assumption.
Qed.

(** C6.  For every string of valid digits and every radix in [2, 36],
    [parseBigInt] returns the value Horner's rule gives, reading the digits
    left to right; letters count in either case and the value is not
    negative.  In particular ff in base 16 is 255, 1010 in base 2 is 10
    and z in base 36 is 35. *)
Theorem parse_is_horner :
  (forall (str : string) (radix : Z) (digits : list Z),
      2 <= radix <= 36 ->
      map digit_value (list_ascii_of_string str) = map Some digits ->
      Forall (fun digit => digit < radix) digits ->
      parseBigInt str radix = Ok (horner radix digits 0)
      /\ 0 <= horner radix digits 0)
  /\ parseBigInt "ff" 16 = Ok 255
  /\ parseBigInt "FF" 16 = Ok 255
  /\ parseBigInt "1010" 2 = Ok 10
  /\ parseBigInt "z" 36 = Ok 35.
Proof.
  split; [|repeat split; reflexivity].
  intros str radix digits Hr Hm Hf. split.
  - apply parse_loop_horner; assumption.
  - apply horner_nonneg; [lia | lia |]. eapply digit_values_nonneg. eassumption.
Qed.

Lemma parse_is_horner_witness :
  parseBigInt "1F" 16 = Ok (horner 16 [1; 15] 0)
  /\ 0 <= horner 16 [1; 15] 0.
Proof.
  apply (proj1 parse_is_horner "1F"%string 16 [1; 15]).
  - lia.
  - reflexivity.
  - repeat constructor.
Defined.

(** C9.  For every radix, [parseBigInt] of the empty string succeeds and
    returns 0, the initial value of the accumulator. *)
Theorem parse_empty (radix : Z) : parseBigInt "" radix = Ok 0.
Proof. reflexivity. Qed.

(** Accepted characters are read through; the accumulator changes. *)
Lemma parse_prefix (radix : Z) :
  forall (pre : list ascii),
    Forall (acceptable radix) pre ->
    forall acc, exists acc',
      forall rest,
        parse_loop (toLowerCase (pre ++ rest)) radix acc
        = parse_loop (toLowerCase rest) radix acc'.
Proof.
  induction pre as [|ch pre IH]; intros Hf acc.
  - exists acc. reflexivity.
  - inversion Hf as [|? ? (v & Hv & Hlt) Hf']; subst.
    destruct (IH Hf' (acc * radix + v)) as [acc' H].
    exists acc'. intros rest. cbn [app].
    rewrite parse_loop_step, Hv.
    destruct (Z.geb_spec v radix); [lia | apply H].
Qed.

(** The three ways the loop can end, decided by the leftmost character
    that is not accepted. *)
Lemma parse_cases (radix : Z) :
  forall (chars : list ascii) (acc : Z),
    (Forall (acceptable radix) chars
     /\ exists v, parse_loop (toLowerCase chars) radix acc = Ok v)
    \/ (exists pre ch post,
           chars = pre ++ ch :: post
           /\ Forall (acceptable radix) pre
           /\ digit_value ch = None
           /\ parse_loop (toLowerCase chars) radix acc = Throw InvalidDigit)
    \/ (exists pre ch post v,
           chars = pre ++ ch :: post
           /\ Forall (acceptable radix) pre
           /\ digit_value ch = Some v /\ radix <= v
           /\ parse_loop (toLowerCase chars) radix acc
              = Throw DigitOutOfRange).
Proof.
  induction chars as [|ch chars IH]; intros acc.
  - left. split; [constructor | exists acc; reflexivity].
  - rewrite parse_loop_step.
    destruct (digit_value ch) as [v|] eqn:Hv.
    + destruct (Z.geb_spec v radix) as [Hge|Hlt].
      * right. right. exists [], ch, chars, v.
        repeat split; try assumption; constructor.
      * assert (acceptable radix ch) as Hacc by (exists v; split; assumption).
        destruct (IH (acc * radix + v))
          as [[Hf Hok] | [(pre & c & post & E & Hf & Hc & Hr)
                         | (pre & c & post & w & E & Hf & Hc & Hw & Hr)]].
        -- left. split; [constructor; assumption | assumption].
        -- right. left. exists (ch :: pre), c, post. subst chars.
           repeat split; try assumption. constructor; assumption.
        -- right. right. exists (ch :: pre), c, post, w. subst chars.
           repeat split; try assumption. constructor; assumption.
    + right. left. exists [], ch, chars.
      repeat split; try assumption; constructor.
Qed.

(** C7, as amended.  [parseBigInt] fails exactly when some character is
    not a digit of the radix, with the error of the leftmost such
    character: InvalidDigit when it is outside [0-9a-z] after case folding,
    DigitOutOfRange when its digit value is not below the radix.  It
    succeeds when every character is accepted; no character is skipped. *)
Theorem parse_errors (str : string) (radix : Z) :
  let chars := list_ascii_of_string str in
  (parseBigInt str radix = Throw InvalidDigit <->
   exists pre ch post,
     chars = pre ++ ch :: post
     /\ Forall (acceptable radix) pre /\ digit_value ch = None)
  /\ (parseBigInt str radix = Throw DigitOutOfRange <->
      exists pre ch post v,
        chars = pre ++ ch :: post
        /\ Forall (acceptable radix) pre
        /\ digit_value ch = Some v /\ radix <= v)
  /\ ((exists v, parseBigInt str radix = Ok v) <->
      Forall (acceptable radix) chars).
Proof.
  intros chars. unfold parseBigInt. fold chars.
  destruct (parse_cases radix chars 0)
    as [[Hf [v Hok]] | [(pre & c & post & E & Hf & Hc & Hr)
                       | (pre & c & post & w & E & Hf & Hc & Hw & Hr)]].
  - split; [|split].
    + split; [rewrite Hok; discriminate|].
      intros (pre & c & post & E & Hp & Hc). exfalso.
      destruct (parse_prefix radix pre Hp 0) as [acc' H].
      rewrite E, H, parse_loop_step, Hc in Hok. discriminate.
    + split; [rewrite Hok; discriminate|].
      intros (pre & c & post & w & E & Hp & Hc & Hw). exfalso.
      destruct (parse_prefix radix pre Hp 0) as [acc' H].
      rewrite E, H, parse_loop_step, Hc in Hok.
      destruct (Z.geb_spec w radix); [discriminate | lia].
    + split; intros _; [assumption | exists v; assumption].
  - split; [|split].
    + split; intros _; [exists pre, c, post; auto | assumption].
    + split; [rewrite Hr; discriminate|].
      intros (pre' & c' & post' & w & E' & Hp & Hc' & Hw). exfalso.
      destruct (parse_prefix radix pre' Hp 0) as [acc' H].
      rewrite E', H, parse_loop_step, Hc' in Hr.
      destruct (Z.geb_spec w radix); [discriminate | lia].
    + split; [intros [v Hv]; rewrite Hr in Hv; discriminate|].
      intros Hall. exfalso.
      destruct (parse_prefix radix chars Hall 0) as [acc' H].
      specialize (H []). rewrite app_nil_r, Hr in H. discriminate.
  - split; [|split].
    + split; [rewrite Hr; discriminate|].
      intros (pre' & c' & post' & E' & Hp & Hc'). exfalso.
      destruct (parse_prefix radix pre' Hp 0) as [acc' H].
      rewrite E', H, parse_loop_step, Hc' in Hr. discriminate.
    + split; intros _; [exists pre, c, post, w; auto | assumption].
    + split; [intros [v Hv]; rewrite Hr in Hv; discriminate|].
      intros Hall. exfalso.
      destruct (parse_prefix radix chars Hall 0) as [acc' H].
      specialize (H []). rewrite app_nil_r, Hr in H. discriminate.
Qed.

Lemma parse_errors_witness :
  parseBigInt "12!" 10 = Throw InvalidDigit.
Proof.
  apply (proj2 (proj1 (parse_errors "12!" 10))).
  exists ["1"; "2"]%char, "!"%char, [].
  split; [reflexivity | split; [|reflexivity]].
  repeat constructor.
  - exists 1. split; [reflexivity | lia].
  - exists 2. split; [reflexivity | lia].
Defined.

(** C7 as stated fails: in "f!" read in base 10 a character lies outside
    [0-9a-z], yet the error is DigitOutOfRange, raised by the 'f' before
    it; in "!f" a digit value is not below the radix, yet the error is
    InvalidDigit. *)
Lemma parse_errors_counterexample :
  ~ (parseBigInt "f!" 10 = Throw InvalidDigit <->
     exists ch, In ch (list_ascii_of_string "f!") /\ digit_value ch = None)
  /\ ~ (parseBigInt "!f" 10 = Throw DigitOutOfRange <->
        exists ch v, In ch (list_ascii_of_string "!f")
                     /\ digit_value ch = Some v /\ 10 <= v).
Proof.
  split.
  - intros [_ H].
    assert (parseBigInt "f!" 10 = Throw InvalidDigit) as E.
    { apply H. exists "!"%char. split; [right; left|]; reflexivity. }
    discriminate E.
  - intros [_ H].
    assert (parseBigInt "!f" 10 = Throw DigitOutOfRange) as E.
    { apply H. exists "f"%char, 15.
      split; [right; left; reflexivity | split; [reflexivity | lia]]. }
    discriminate E.
Qed.

(** ** The enumeration order of [Object.entries] *)

Lemma insert_index_Permutation {V : Type} (i : Z) (p : string * V)
  (l : list (Z * (string * V))) :
  Permutation (insert_index i p l) ((i, p) :: l).
Proof.
  induction l as [|[j q] l IH]; cbn [insert_index]; [reflexivity|].
  destruct (i <? j); [reflexivity|].
  rewrite IH. apply perm_swap.
Qed.

Lemma insert_index_Sorted {V : Type} (i : Z) (p : string * V)
  (l : list (Z * (string * V))) :
  Sorted index_le l -> Sorted index_le (insert_index i p l).
Proof.
  induction l as [|[j q] l IH]; intros Hs; cbn [insert_index].
  - repeat constructor.
  - destruct (Z.ltb_spec i j) as [Hlt|Hge].
    + constructor; [assumption|]. constructor. unfold index_le; cbn. lia.
    + apply Sorted_inv in Hs as [Hs Hh].
      constructor; [apply IH; assumption|].
      destruct l as [|[j' q'] l']; cbn [insert_index].
      * constructor. unfold index_le; cbn. lia.
      * destruct (i <? j'); constructor; unfold index_le; cbn; [lia|].
        inversion Hh; subst. assumption.
Qed.

(** The array-index labels come out in ascending numeric order. *)
Lemma index_properties_Sorted {V : Type} (props : list (string * V)) :
  Sorted index_le (index_properties props).
Proof.
  induction props as [|p props IH]; cbn [index_properties]; [constructor|].
  destruct (array_index (fst p)); [apply insert_index_Sorted|]; assumption.
Qed.

Lemma index_properties_Permutation {V : Type} (props : list (string * V)) :
  Permutation (map snd (index_properties props))
              (filter (fun p => is_array_index (fst p)) props).
Proof.
  induction props as [|p props IH]; cbn [index_properties filter];
    [reflexivity|].
  unfold is_array_index at 1. destruct (array_index (fst p)) as [i|].
  - rewrite insert_index_Permutation. cbn [map snd]. now constructor.
  - assumption.
Qed.

(** [Object.entries] neither drops nor repeats an entry. *)
Lemma Object_entries_Permutation {V : Type} (props : list (string * V)) :
  Permutation (Object_entries props) props.
Proof.
  unfold Object_entries. rewrite index_properties_Permutation.
  induction props as [|p props IH]; cbn [filter]; [reflexivity|].
  destruct (is_array_index (fst p)); cbn [negb app].
  - now constructor.
  - rewrite <- Permutation_middle. now constructor.
Qed.

Lemma index_properties_none {V : Type} (props : list (string * V)) :
  (forall p, In p props -> is_array_index (fst p) = false) ->
  index_properties props = [].
Proof.
  induction props as [|p props IH]; intros H; [reflexivity|].
  pose proof (H p (or_introl eq_refl)) as Hp. unfold is_array_index in Hp.
  cbn [index_properties]. destruct (array_index (fst p)); [discriminate|].
  apply IH. intros q Hq. apply H. now right.
Qed.

(** Labels that are no array indices keep the order in which they were
    written. *)
Lemma Object_entries_written_order {V : Type} (props : list (string * V)) :
  (forall p, In p props -> is_array_index (fst p) = false) ->
  Object_entries props = props.
Proof.
  intros H. unfold Object_entries.
  rewrite index_properties_none by assumption. cbn [map app].
  induction props as [|p props IH]; [reflexivity|].
  cbn [filter]. rewrite (H p (or_introl eq_refl)). cbn [negb].
  f_equal. apply IH. intros q Hq. apply H. now right.
Qed.

(** ** [computeConstantTerm]: claims C1, C2, C3, C8 and C10 *)

Lemma slice0_firstn {A : Type} (arr : list A) (k : Z) :
  0 <= k -> slice0 arr k = firstn (Z.to_nat k) arr.
Proof.
  intros Hk. unfold slice0. destruct (Z.ltb_spec k 0) as [|_]; [lia|].
  destruct (Z.le_gt_cases k (Z.of_nat (List.length arr))) as [Hle|Hgt].
  - now rewrite Z.min_l by assumption.
  - rewrite Z.min_r, Nat2Z.id by lia.
    rewrite firstn_all, firstn_all2 by lia. reflexivity.
Qed.

Lemma computeConstantTerm_decoded (testcase : TestCase) (all : list Point.t) :
  decoded_entries testcase = Ok all ->
  computeConstantTerm testcase
  = reconstruct (slice0 all (keys_k testcase)) (keys_k testcase).
Proof.
  intros H. unfold computeConstantTerm, extract_entries. now rewrite H.
Qed.

Lemma reconstruct_nonpositive (entries : list Point.t) (k : Z) :
  k <= 0 -> reconstruct entries k = Ok 0.
Proof.
  intros Hk. unfold reconstruct, range.
  replace (Z.to_nat k) with 0%nat by lia. reflexivity.
Qed.

(** Pairwise different x-coordinates: the result is the canonical fraction
    of Lagrange's formula, narrowed. *)
Lemma reconstruct_distinct (entries : list Point.t) (k : Z) :
  List.length entries = Z.to_nat k ->
  NoDup (map Point.x entries) ->
  exists c, reconstruct entries k = Rational.toBigInt c
            /\ canonical c /\ (Q_of c == lagrange0 entries)%Q.
Proof.
  intros Hk Hnd.
  destruct (reconstruct_cases entries k Hk)
    as [(c & E & Hc & Hq & _)|[_ Hcl]].
  - exists c. split; [assumption | split; [assumption|]].
    rewrite Hq, lagrange_rows_lagrange0 by assumption. reflexivity.
  - exfalso. exact (clash_not_NoDup entries Hcl Hnd).
Qed.

(** A repeated x-coordinate: the division by zero is the first error. *)
Lemma reconstruct_duplicate (entries : list Point.t) (k : Z) :
  List.length entries = Z.to_nat k ->
  ~ NoDup (map Point.x entries) ->
  reconstruct entries k = Throw DivisionByZero.
Proof.
  intros Hk Hnd.
  destruct (reconstruct_cases entries k Hk)
    as [(c & _ & _ & _ & Hn)|[E _]]; [|assumption].
  exfalso. apply Hnd. apply no_clash_NoDup. assumption.
Qed.

Lemma map_x_sample (cs xs : list Z) : map Point.x (sample cs xs) = xs.
Proof.
  unfold sample. rewrite map_map. cbn. apply map_id.
Qed.

Lemma lagrange0_sample (cs xs : list Z) :
  lagrange0 (sample cs xs)
  = lagrangeQ (fun a => inject_Z (eval_poly cs a)) xs.
Proof.
  unfold lagrange0. rewrite map_x_sample. unfold sample.
  rewrite sumQ_map. reflexivity.
Qed.

Lemma reconstruct_sample (cs xs : list Z) :
  NoDup xs ->
  (List.length cs <= List.length xs)%nat ->
  reconstruct (sample cs xs) (Z.of_nat (List.length xs))
  = Ok (eval_poly cs 0).
Proof.
  intros Hnd Hl.
  destruct (reconstruct_distinct (sample cs xs) (Z.of_nat (List.length xs)))
    as (c & E & Hc & Hq).
  - unfold sample. rewrite length_map, Nat2Z.id. reflexivity.
  - rewrite map_x_sample. assumption.
  - rewrite lagrange0_sample, lagrangeQ_poly in Hq by assumption.
    rewrite E, (canonical_integer c _ Hc Hq). reflexivity.
Qed.

Lemma reconstruct_Permutation (entries entries' : list Point.t) (k : Z) :
  List.length entries = Z.to_nat k ->
  Permutation entries entries' ->
  reconstruct entries k = reconstruct entries' k.
Proof.
  intros Hk HP.
  assert (List.length entries' = Z.to_nat k) as Hk'
      by (rewrite <- (Permutation_length HP); assumption).
  pose proof (Permutation_map Point.x HP) as HPx.
  destruct (reconstruct_cases entries k Hk)
    as [(c & E & Hc & Hq & Hn)|[E Hcl]].
  - apply no_clash_NoDup in Hn.
    destruct (reconstruct_distinct entries' k Hk')
      as (c' & E' & Hc' & Hq').
    { exact (Permutation_NoDup HPx Hn). }
    rewrite E, E'. f_equal. apply canonical_unique; try assumption.
    rewrite Hq, Hq', lagrange_rows_lagrange0 by assumption.
    apply lagrange0_Permutation. assumption.
  - rewrite E. symmetry. apply reconstruct_duplicate; [assumption|].
    intros Hnd. apply (clash_not_NoDup entries Hcl).
    exact (Permutation_NoDup (Permutation_sym HPx) Hnd).
Qed.

Lemma eval_poly_0 (cs : list Z) : eval_poly cs 0 = hd 0 cs.
Proof. destruct cs; cbn [eval_poly hd]; lia. Qed.

(** C1.  For every polynomial with integer coefficients of degree below
    [k] and every list of [k] points sampled from it at pairwise different
    integer x-coordinates, the interpolation over these points with
    threshold [k] returns the constant term f(0) of the polynomial; so does
    [computeConstantTerm] on every test case that decodes to these
    points. *)
Theorem roundtrip_constant_term (cs xs : list Z) (k : Z) :
  k = Z.of_nat (List.length xs) ->
  NoDup xs ->
  (List.length cs <= List.length xs)%nat ->
  reconstruct (sample cs xs) k = Ok (eval_poly cs 0)
  /\ eval_poly cs 0 = hd 0 cs
  /\ forall testcase,
      keys_k testcase = k ->
      decoded_entries testcase = Ok (sample cs xs) ->
      computeConstantTerm testcase = Ok (eval_poly cs 0).
Proof.
  intros -> Hnd Hl.
  pose proof (reconstruct_sample cs xs Hnd Hl) as Hr.
  split; [assumption | split; [apply eval_poly_0|]].
  intros testcase Hk Hd.
  rewrite (computeConstantTerm_decoded _ _ Hd), Hk, slice0_firstn by lia.
  rewrite Nat2Z.id.
  replace (List.length xs) with (List.length (sample cs xs))
    by (unfold sample; apply length_map).
  rewrite firstn_all.
  unfold sample at 2. rewrite length_map. assumption.
Qed.

Lemma roundtrip_constant_term_witness :
  computeConstantTerm case_linear = Ok (eval_poly [5; 1] 0).
Proof.
  apply (proj2 (proj2 (roundtrip_constant_term [5; 1] [1; 2; 3] 3
                         eq_refl ltac:(prove_NoDup) ltac:(cbn; lia))));
    reflexivity.
Defined.

(** The second scenario of the specification: a in base 16 and 14 in
    base 8 lie on f(x) = 2x + 8. *)
Example mixed_radix_scenario : computeConstantTerm case_mixed_radix = Ok 8.
Proof. reflexivity. Qed.

(** C2, as amended.  On a test case whose entries all decode,
    [computeConstantTerm] uses exactly the first [k] points in the
    enumeration order of the object (labels that are array indices in
    ascending numeric order, then the other labels as written); the result
    is the same for every test case with the same [k] and the same first
    [k] points, whatever the later points are; and when the first [k]
    points are samples of a polynomial of degree below [k] at pairwise
    different x-coordinates, the result is its constant term. *)
Theorem first_k_in_enumeration_order
  (testcase : TestCase) (all : list Point.t) :
  decoded_entries testcase = Ok all ->
  0 <= keys_k testcase ->
  let k := keys_k testcase in
  computeConstantTerm testcase = reconstruct (firstn (Z.to_nat k) all) k
  /\ (forall testcase' all',
         keys_k testcase' = k ->
         decoded_entries testcase' = Ok all' ->
         firstn (Z.to_nat k) all' = firstn (Z.to_nat k) all ->
         computeConstantTerm testcase' = computeConstantTerm testcase)
  /\ (forall cs xs trailing,
         all = sample cs xs ++ trailing ->
         Z.of_nat (List.length xs) = k ->
         NoDup xs ->
         (List.length cs <= List.length xs)%nat ->
         computeConstantTerm testcase = Ok (eval_poly cs 0)).
Proof.
  intros Hd Hk k.
  assert (computeConstantTerm testcase
          = reconstruct (firstn (Z.to_nat k) all) k) as Hfirst
      by (rewrite (computeConstantTerm_decoded _ _ Hd), slice0_firstn
            by assumption; reflexivity).
  split; [assumption | split].
  - intros testcase' all' Hk' Hd' Hsame.
    rewrite Hfirst, (computeConstantTerm_decoded _ _ Hd'), Hk'.
    fold k in Hk. rewrite slice0_firstn, Hsame by assumption. reflexivity.
  - intros cs xs trailing Hall Hlen Hnd Hl.
    rewrite Hfirst, Hall, <- Hlen, Nat2Z.id.
    replace (List.length xs) with (List.length (sample cs xs) + 0)%nat
      by (unfold sample; rewrite length_map; lia).
    rewrite firstn_app_2, firstn_O, app_nil_r.
    unfold sample at 2. rewrite length_map, Nat.add_0_r.
    apply reconstruct_sample; assumption.
Qed.

Lemma first_k_in_enumeration_order_witness :
  computeConstantTerm case_excess = Ok (eval_poly [5; 1] 0).
Proof.
  apply (proj2 (proj2 (first_k_in_enumeration_order case_excess
                         (sample [5; 1] [1; 2; 3] ++ [Point.mk 4 100])
                         eq_refl ltac:(cbn; lia)))
           [5; 1] [1; 2; 3] [Point.mk 4 100]).
  - reflexivity.
  - reflexivity.
  - prove_NoDup.
  - cbn; lia.
Defined.

(** C2 as stated fails: with the labels written in the order 2, 1 and
    k = 1, the point used is (1, 5), the one with the smaller label, not
    the point (2, 7) that was written first. *)
Lemma first_k_counterexample :
  extract_entries case_written_descending = Ok [Point.mk 1 5]
  /\ spec_entries case_written_descending = Ok [Point.mk 2 7]
  /\ computeConstantTerm case_written_descending = Ok 5
  /\ spec_computeConstantTerm case_written_descending = Ok 7
  /\ computeConstantTerm case_written_descending
     <> spec_computeConstantTerm case_written_descending.
Proof. repeat split; try reflexivity. discriminate. Qed.




(** C8.  Two lists of at least [k] points that are permutations of each
    other and have the same points among their first [k] give the same
    result, be it an integer or an error. *)
Theorem order_independence
  (testcase testcase' : TestCase) (all all' : list Point.t) :
  decoded_entries testcase = Ok all ->
  decoded_entries testcase' = Ok all' ->
  keys_k testcase' = keys_k testcase ->
  0 <= keys_k testcase <= Z.of_nat (List.length all) ->
  Permutation all all' ->
  Permutation (firstn (Z.to_nat (keys_k testcase)) all)
              (firstn (Z.to_nat (keys_k testcase)) all') ->
  computeConstantTerm testcase = computeConstantTerm testcase'.
Proof.
  intros Hd Hd' Hk' Hk _ HP.
  rewrite (computeConstantTerm_decoded _ _ Hd),
    (computeConstantTerm_decoded _ _ Hd'), Hk', !slice0_firstn by lia.
  apply reconstruct_Permutation; [|assumption].
  apply firstn_length_le. lia.
Qed.

Lemma order_independence_witness :
  computeConstantTerm case_excess = computeConstantTerm case_excess_permuted.
Proof.
  apply (order_independence case_excess case_excess_permuted
           [Point.mk 1 6; Point.mk 2 7; Point.mk 3 8; Point.mk 4 100]
           [Point.mk 3 8; Point.mk 1 6; Point.mk 2 7; Point.mk 4 100]).
  - reflexivity.
  - reflexivity.
  - reflexivity.
  - cbn; lia.
  - apply Permutation_sym.
    apply (Permutation_cons_app [Point.mk 1 6; Point.mk 2 7] [Point.mk 4 100]).
    apply Permutation_refl.
  - apply Permutation_sym.
    apply (Permutation_cons_app [Point.mk 1 6; Point.mk 2 7] []).
    apply Permutation_refl.
Defined.




(** * Further properties of the code *)

(** ** [gcd] (lines 5-14) *)

(** X1.  [gcd] returns the greatest common divisor of its arguments,
    whatever their signs: a non-negative common divisor that every common
    divisor divides. *)
Theorem gcd_greatest_common_divisor (a b : Z) :
  0 <= gcd a b
  /\ (gcd a b | a) /\ (gcd a b | b)
  /\ (forall c, (c | a) -> (c | b) -> (c | gcd a b)).
Proof.
  rewrite gcd_spec. split; [apply Z.gcd_nonneg | split; [|split]].
  - apply Z.gcd_divide_l.
  - apply Z.gcd_divide_r.
  - intros c Ha Hb. apply Z.gcd_greatest; assumption.
Qed.

Lemma gcd_greatest_common_divisor_witness : (3 | gcd 12 (-18)).
Proof.
  apply (proj2 (proj2 (proj2 (gcd_greatest_common_divisor 12 (-18))))).
  - exists 4. reflexivity.
  - exists (-6). reflexivity.
Defined.

(** ** [class Rational] (lines 17-55) *)

(** X2.  In the constructor, called with a nonzero denominator, the divisor
    [g] is positive and divides both the numerator and the denominator:
    the two BigInt divisions are never by zero and leave no remainder. *)
Theorem constructor_divisions_exact (numerator denominator : Z) :
  denominator <> 0 ->
  let g := gcd numerator denominator in
  0 < g
  /\ (numerator ÷ g) * g = numerator
  /\ (denominator ÷ g) * g = denominator
  /\ gcd (- numerator) (- denominator) = g.
Proof.
  intros Hd g. subst g. rewrite !gcd_spec.
  assert (0 < Z.gcd numerator denominator) as Hg.
  { pose proof (Z.gcd_nonneg numerator denominator).
    assert (Z.gcd numerator denominator <> 0); [|lia].
    intros E. apply Z.gcd_eq_0_r in E. contradiction. }
  split; [assumption | split; [|split]].
  - destruct (Z.gcd_divide_l numerator denominator) as [q Hq].
    rewrite Hq at 1. rewrite Z.quot_mul by lia. symmetry. exact Hq.
  - destruct (Z.gcd_divide_r numerator denominator) as [q Hq].
    rewrite Hq at 1. rewrite Z.quot_mul by lia. symmetry. exact Hq.
  - rewrite Z.gcd_opp_l, Z.gcd_opp_r. reflexivity.
Qed.

Lemma constructor_divisions_exact_witness :
  0 < gcd 6 (-4)
  /\ (6 ÷ gcd 6 (-4)) * gcd 6 (-4) = 6
  /\ (-4 ÷ gcd 6 (-4)) * gcd 6 (-4) = -4
  /\ gcd (- 6) (- -4) = gcd 6 (-4).
Proof.
  apply (constructor_divisions_exact 6 (-4)). discriminate.
Defined.

(** X3.  The constructor keeps the value of the fraction: called with a
    nonzero denominator it returns a Rational [r] with
    [r.n / r.d = numerator / denominator]. *)
Theorem constructor_keeps_value (numerator denominator : Z) :
  denominator <> 0 ->
  exists r,
    Rational.new numerator denominator = Ok r
    /\ Rational.n r * denominator = numerator * Rational.d r
    /\ (Q_of r == inject_Z numerator / inject_Z denominator)%Q.
Proof.
  intros Hd.
  destruct (new_spec numerator denominator Hd) as (r & E & Hc & Hx).
  exists r. split; [assumption | split; [assumption|]].
  unfold Q_of. apply Qdiv_inject_cross; try assumption.
  destruct Hc. lia.
Qed.

Lemma constructor_keeps_value_witness :
  exists r,
    Rational.new 6 (-4) = Ok r
    /\ Rational.n r * (-4) = 6 * Rational.d r
    /\ (Q_of r == inject_Z 6 / inject_Z (-4))%Q.
Proof.
  apply (constructor_keeps_value 6 (-4)). discriminate.
Defined.

(** X4.  Two calls of the constructor return the same Rational exactly when
    their arguments denote the same fraction: the stored pair is a normal
    form, independent of sign placement and common factors. *)
Theorem constructor_normal_form (n1 d1 n2 d2 : Z) :
  d1 <> 0 -> d2 <> 0 ->
  (Rational.new n1 d1 = Rational.new n2 d2 <-> n1 * d2 = n2 * d1).
Proof.
  intros H1 H2.
  destruct (new_Q n1 d1 H1) as (r1 & E1 & Hc1 & Hq1).
  destruct (new_Q n2 d2 H2) as (r2 & E2 & Hc2 & Hq2).
  rewrite E1, E2. split.
  - intros [= ->]. apply (Qdiv_inject_cross n1 d1 n2 d2 H1 H2).
    rewrite <- Hq1, <- Hq2. reflexivity.
  - intros H. f_equal. apply canonical_unique; try assumption.
    rewrite Hq1, Hq2. apply Qdiv_inject_cross; assumption.
Qed.

Lemma constructor_normal_form_witness :
  Rational.new 6 (-4) = Rational.new (-9) 6.
Proof.
  apply (proj2 (constructor_normal_form 6 (-4) (-9) 6
                  ltac:(discriminate) ltac:(discriminate))).
  reflexivity.
Defined.

(** X5.  [add] is exact: on Rationals built by the constructor it returns
    a Rational in normal form whose value is the sum of the two values. *)
Theorem add_exact (a b : Rational.t) :
  canonical a -> canonical b ->
  exists r, Rational.add a b = Ok r /\ canonical r
            /\ (Q_of r == Q_of a + Q_of b)%Q.
Proof. exact (add_Q a b). Qed.

Lemma add_exact_witness :
  exists r, Rational.add (Rational.mk 1 2) (Rational.mk 1 6) = Ok r
            /\ canonical r
            /\ (Q_of r == Q_of (Rational.mk 1 2) + Q_of (Rational.mk 1 6))%Q.
Proof.
  apply (add_exact (Rational.mk 1 2) (Rational.mk 1 6));
    (split; [reflexivity | reflexivity]).
Defined.

(** X6.  [multiply] is exact: on Rationals built by the constructor it
    returns a Rational in normal form whose value is the product of the two
    values. *)
Theorem multiply_exact (a b : Rational.t) :
  canonical a -> canonical b ->
  exists r, Rational.multiply a b = Ok r /\ canonical r
            /\ (Q_of r == Q_of a * Q_of b)%Q.
Proof. exact (multiply_Q a b). Qed.

Lemma multiply_exact_witness :
  exists r, Rational.multiply (Rational.mk 2 3) (Rational.mk 3 4) = Ok r
            /\ canonical r
            /\ (Q_of r == Q_of (Rational.mk 2 3) * Q_of (Rational.mk 3 4))%Q.
Proof.
  apply (multiply_exact (Rational.mk 2 3) (Rational.mk 3 4));
    (split; [reflexivity | reflexivity]).
Defined.

(** X7.  [add] and [multiply] are commutative, on all pairs of Rationals
    and including the case where they throw. *)
Theorem add_multiply_commutative (a b : Rational.t) :
  Rational.add a b = Rational.add b a
  /\ Rational.multiply a b = Rational.multiply b a.
Proof.
  unfold Rational.add, Rational.multiply. split; f_equal; ring.
Qed.

(** X8.  [add] and [multiply] are associative on Rationals built by the
    constructor: both groupings return the same Rational. *)
Theorem add_multiply_associative (a b c : Rational.t) :
  canonical a -> canonical b -> canonical c ->
  (ab <- Rational.add a b ;; Rational.add ab c)
  = (bc <- Rational.add b c ;; Rational.add a bc)
  /\ (ab <- Rational.multiply a b ;; Rational.multiply ab c)
     = (bc <- Rational.multiply b c ;; Rational.multiply a bc).
Proof.
  intros Ha Hb Hc. split.
  - destruct (add_Q a b Ha Hb) as (ab & Eab & Hab & Qab).
    destruct (add_Q ab c Hab Hc) as (l & El & Hl & Ql).
    destruct (add_Q b c Hb Hc) as (bc & Ebc & Hbc & Qbc).
    destruct (add_Q a bc Ha Hbc) as (r & Er & Hr & Qr).
    rewrite Eab, Ebc. cbn [bind]. rewrite El, Er. f_equal.
    apply canonical_unique; try assumption.
    rewrite Ql, Qr, Qab, Qbc. ring.
  - destruct (multiply_Q a b Ha Hb) as (ab & Eab & Hab & Qab).
    destruct (multiply_Q ab c Hab Hc) as (l & El & Hl & Ql).
    destruct (multiply_Q b c Hb Hc) as (bc & Ebc & Hbc & Qbc).
    destruct (multiply_Q a bc Ha Hbc) as (r & Er & Hr & Qr).
    rewrite Eab, Ebc. cbn [bind]. rewrite El, Er. f_equal.
    apply canonical_unique; try assumption.
    rewrite Ql, Qr, Qab, Qbc. ring.
Qed.

Lemma add_multiply_associative_witness :
  (ab <- Rational.add (Rational.mk 1 2) (Rational.mk 1 3) ;;
   Rational.add ab (Rational.mk 1 6))
  = (bc <- Rational.add (Rational.mk 1 3) (Rational.mk 1 6) ;;
     Rational.add (Rational.mk 1 2) bc)
  /\ (ab <- Rational.multiply (Rational.mk 1 2) (Rational.mk 1 3) ;;
      Rational.multiply ab (Rational.mk 1 6))
     = (bc <- Rational.multiply (Rational.mk 1 3) (Rational.mk 1 6) ;;
        Rational.multiply (Rational.mk 1 2) bc).
Proof.
  apply (add_multiply_associative
           (Rational.mk 1 2) (Rational.mk 1 3) (Rational.mk 1 6));
    (split; [reflexivity | reflexivity]).
Defined.

(** X9.  [multiply] distributes over [add] on Rationals built by the
    constructor. *)
Theorem multiply_distributes_over_add (a b c : Rational.t) :
  canonical a -> canonical b -> canonical c ->
  (bc <- Rational.add b c ;; Rational.multiply a bc)
  = (ab <- Rational.multiply a b ;;
     ac <- Rational.multiply a c ;;
     Rational.add ab ac).
Proof.
  intros Ha Hb Hc.
  destruct (add_Q b c Hb Hc) as (bc & Ebc & Hbc & Qbc).
  destruct (multiply_Q a bc Ha Hbc) as (l & El & Hl & Ql).
  destruct (multiply_Q a b Ha Hb) as (ab & Eab & Hab & Qab).
  destruct (multiply_Q a c Ha Hc) as (ac & Eac & Hac & Qac).
  destruct (add_Q ab ac Hab Hac) as (r & Er & Hr & Qr).
  rewrite Ebc, Eab. cbn [bind]. rewrite Eac. cbn [bind]. rewrite El, Er.
  f_equal. apply canonical_unique; try assumption.
  rewrite Ql, Qr, Qab, Qac, Qbc. ring.
Qed.

Lemma multiply_distributes_over_add_witness :
  (bc <- Rational.add (Rational.mk 1 3) (Rational.mk 1 6) ;;
   Rational.multiply (Rational.mk 3 2) bc)
  = (ab <- Rational.multiply (Rational.mk 3 2) (Rational.mk 1 3) ;;
     ac <- Rational.multiply (Rational.mk 3 2) (Rational.mk 1 6) ;;
     Rational.add ab ac).
Proof.
  apply (multiply_distributes_over_add
           (Rational.mk 3 2) (Rational.mk 1 3) (Rational.mk 1 6));
    (split; [reflexivity | reflexivity]).
Defined.

(** X10.  On a Rational [r] built by the constructor, adding 0/1 and
    multiplying by 1/1 return [r] itself, multiplying by 0/1 returns 0/1,
    and the constructor applied to the fields of [r] returns [r]. *)
Theorem rational_identities (r : Rational.t) :
  canonical r ->
  Rational.add r (Rational.mk 0 1) = Ok r
  /\ Rational.multiply r (Rational.mk 1 1) = Ok r
  /\ Rational.multiply r (Rational.mk 0 1) = Ok (Rational.mk 0 1)
  /\ Rational.new (Rational.n r) (Rational.d r) = Ok r.
Proof.
  intros Hr. split; [|split; [|split]].
  - destruct (add_Q r _ Hr canonical_zero) as (s & E & Hs & Q).
    rewrite E. f_equal. apply canonical_unique; try assumption.
    rewrite Q, Q_of_zero. ring.
  - destruct (multiply_Q r _ Hr canonical_one) as (s & E & Hs & Q).
    rewrite E. f_equal. apply canonical_unique; try assumption.
    rewrite Q, Q_of_one. ring.
  - destruct (multiply_Q r _ Hr canonical_zero) as (s & E & Hs & Q).
    rewrite E. f_equal. apply canonical_unique;
      [assumption | apply canonical_zero|].
    rewrite Q, Q_of_zero. ring.
  - assert (Rational.d r <> 0) as Hd by (destruct Hr; lia).
    destruct (new_Q (Rational.n r) (Rational.d r) Hd) as (s & E & Hs & Q).
    rewrite E. f_equal. apply canonical_unique; try assumption.
Qed.

Lemma rational_identities_witness :
  Rational.add (Rational.mk (-3) 7) (Rational.mk 0 1)
  = Ok (Rational.mk (-3) 7)
  /\ Rational.multiply (Rational.mk (-3) 7) (Rational.mk 1 1)
     = Ok (Rational.mk (-3) 7)
  /\ Rational.multiply (Rational.mk (-3) 7) (Rational.mk 0 1)
     = Ok (Rational.mk 0 1)
  /\ Rational.new (-3) 7 = Ok (Rational.mk (-3) 7).
Proof.
  apply (rational_identities (Rational.mk (-3) 7)).
  split; [reflexivity | reflexivity].
Defined.

(** X11.  Narrowing a freshly built fraction succeeds exactly when the
    denominator divides the numerator, and then returns the quotient;
    otherwise [toBigInt] throws NonIntegralResult. *)
Theorem narrowing_of_fraction (numerator denominator : Z) :
  denominator <> 0 ->
  ((denominator | numerator) ->
   (r <- Rational.new numerator denominator ;; Rational.toBigInt r)
   = Ok (numerator / denominator))
  /\ (~ (denominator | numerator) ->
      (r <- Rational.new numerator denominator ;; Rational.toBigInt r)
      = Throw NonIntegralResult).
Proof.
  intros Hd.
  destruct (new_Q numerator denominator Hd) as (r & E & Hc & Hq).
  rewrite E. cbn [bind]. split.
  - intros [q Hn]. subst numerator. rewrite Z.div_mul by assumption.
    rewrite (canonical_integer r q Hc); [reflexivity|].
    rewrite Hq, inject_Z_mult. field. apply inject_Z_nonzero. assumption.
  - intros Hndiv. unfold Rational.toBigInt.
    destruct (Z.eqb_spec (Rational.d r) 1) as [E1|_]; [|reflexivity].
    exfalso. apply Hndiv. exists (Rational.n r).
    unfold Q_of in Hq. rewrite E1 in Hq.
    apply (proj1 (Qdiv_inject_cross _ 1 _ _ ltac:(discriminate) Hd)) in Hq.
    lia.
Qed.

Lemma narrowing_of_fraction_witness :
  (r <- Rational.new 12 (-4) ;; Rational.toBigInt r) = Ok (12 / -4).
Proof.
  apply (proj1 (narrowing_of_fraction 12 (-4) ltac:(discriminate))).
  exists (-3). reflexivity.
Defined.

(** ** [parseBigInt] (lines 58-76) *)

Lemma digit_of_range (ch : ascii) (v : Z) :
  digit_of ch = Ok v -> 0 <= v < 36 /\ ch = char_of_digit v.
Proof.
  destruct ch as [[] [] [] [] [] [] [] []]; vm_compute;
    intros [= <-]; repeat split; discriminate || reflexivity.
Qed.

Lemma list_ascii_of_string_append (s1 s2 : string) :
  list_ascii_of_string (s1 ++ s2)
  = list_ascii_of_string s1 ++ list_ascii_of_string s2.
Proof.
  induction s1 as [|c s1 IH]; cbn; [reflexivity | now rewrite IH].
Qed.

Lemma list_ascii_of_string_length (s : string) :
  List.length (list_ascii_of_string s) = String.length s.
Proof. induction s as [|c s IH]; cbn; [reflexivity | now rewrite IH]. Qed.

Lemma parse_loop_app (radix : Z) :
  forall (cs1 cs2 : list ascii) (acc : Z),
    parse_loop (cs1 ++ cs2) radix acc
    = (v1 <- parse_loop cs1 radix acc ;; parse_loop cs2 radix v1).
Proof.
  induction cs1 as [|c cs1 IH]; intros cs2 acc; [reflexivity|].
  cbn [app parse_loop]. destruct (digit_of c) as [dg|e]; [|reflexivity].
  cbn [bind]. destruct (dg >=? radix); [reflexivity | apply IH].
Qed.

(** The accumulator the loop starts from is shifted by one digit position
    for every character read. *)
Lemma parse_loop_acc (radix : Z) :
  forall (cs : list ascii) (acc : Z),
    parse_loop cs radix acc
    = (v <- parse_loop cs radix 0 ;;
       Ok (acc * radix ^ Z.of_nat (List.length cs) + v)).
Proof.
  induction cs as [|c cs IH]; intros acc.
  - cbn. f_equal. lia.
  - cbn [parse_loop]. destruct (digit_of c) as [dg|e]; [|reflexivity].
    cbn [bind]. destruct (dg >=? radix); [reflexivity|].
    rewrite (IH (acc * radix + dg)), (IH (0 * radix + dg)).
    destruct (parse_loop cs radix 0) as [v|e]; [|reflexivity].
    cbn [bind List.length]. f_equal.
    rewrite Nat2Z.inj_succ, Z.pow_succ_r by lia. ring.
Qed.

Lemma parse_loop_bounds (radix : Z) :
  forall (cs : list ascii) (acc v : Z),
    0 <= acc ->
    parse_loop cs radix acc = Ok v ->
    acc * radix ^ Z.of_nat (List.length cs) <= v
    < (acc + 1) * radix ^ Z.of_nat (List.length cs).
Proof.
  induction cs as [|c cs IH]; intros acc v Hacc H.
  - cbn in H. injection H as <-. cbn. lia.
  - cbn [parse_loop] in H. destruct (digit_of c) as [dg|e] eqn:Hd;
      [|discriminate]. cbn [bind] in H.
    destruct (Z.geb_spec dg radix) as [|Hlt]; [discriminate|].
    apply digit_of_range in Hd as [Hdg _].
    apply IH in H; [|nia].
    cbn [List.length]. rewrite Nat2Z.inj_succ, Z.pow_succ_r by lia.
    assert (0 <= radix ^ Z.of_nat (List.length cs)) by (apply Z.pow_nonneg; lia).
    nia.
Qed.

(** X12.  [parseBigInt] is positional: parsing a concatenation parses the
    two parts, shifts the value of the first by one digit position for each
    character of the second and adds the value of the second; an error of
    the first part comes first. *)
Theorem parse_concatenation (s1 s2 : string) (radix : Z) :
  parseBigInt (s1 ++ s2) radix
  = (v1 <- parseBigInt s1 radix ;;
     v2 <- parseBigInt s2 radix ;;
     Ok (v1 * radix ^ Z.of_nat (String.length s2) + v2)).
Proof.
  unfold parseBigInt, toLowerCase.
  rewrite list_ascii_of_string_append, map_app, parse_loop_app.
  destruct (parse_loop (map toLowerCase_char (list_ascii_of_string s1)) radix 0)
    as [v1|e]; [|reflexivity].
  cbn [bind]. rewrite parse_loop_acc, length_map, list_ascii_of_string_length.
  reflexivity.
Qed.

(** X13.  A value returned for a string of [n] characters lies in
    [0, radix^n): the parser returns unsigned magnitudes that fit the
    number of digits read. *)
Theorem parse_value_bounds (str : string) (radix v : Z) :
  parseBigInt str radix = Ok v ->
  0 <= v < radix ^ Z.of_nat (String.length str).
Proof.
  unfold parseBigInt, toLowerCase. intros H.
  apply parse_loop_bounds in H; [|lia].
  rewrite length_map, list_ascii_of_string_length in H. lia.
Qed.

Lemma parse_value_bounds_witness :
  0 <= 255 < 16 ^ Z.of_nat (String.length "ff").
Proof.
  apply (parse_value_bounds "ff" 16 255). reflexivity.
Defined.

(** X14.  For a radix of at least 1, a leading zero does not change the
    result, value or error. *)
Theorem parse_leading_zero (str : string) (radix : Z) :
  1 <= radix ->
  parseBigInt (String "0" str) radix = parseBigInt str radix.
Proof.
  intros Hr. unfold parseBigInt.
  cbn [list_ascii_of_string toLowerCase map parse_loop].
  change (digit_of (toLowerCase_char "0")) with (@Ok Z 0). cbn [bind].
  destruct (Z.geb_spec 0 radix); [lia | reflexivity].
Qed.

Lemma parse_leading_zero_witness :
  parseBigInt (String "0" "17") 8 = parseBigInt "17" 8.
Proof.
  apply (parse_leading_zero "17" 8). lia.
Defined.

Lemma parse_loop_injective (radix : Z) :
  forall (cs1 cs2 : list ascii) (v : Z),
    List.length cs1 = List.length cs2 ->
    parse_loop cs1 radix 0 = Ok v ->
    parse_loop cs2 radix 0 = Ok v ->
    cs1 = cs2.
Proof.
  induction cs1 as [|c1 cs1 IH]; intros [|c2 cs2] v Hl H1 H2;
    try discriminate; [reflexivity|].
  injection Hl as Hl.
  cbn [parse_loop] in H1, H2.
  destruct (digit_of c1) as [d1|] eqn:E1; [|discriminate].
  destruct (digit_of c2) as [d2|] eqn:E2; [|discriminate].
  cbn [bind] in H1, H2.
  destruct (Z.geb_spec d1 radix); [discriminate|].
  destruct (Z.geb_spec d2 radix); [discriminate|].
  rewrite parse_loop_acc in H1, H2.
  destruct (parse_loop cs1 radix 0) as [w1|] eqn:P1; [|discriminate].
  destruct (parse_loop cs2 radix 0) as [w2|] eqn:P2; [|discriminate].
  cbn [bind] in H1, H2. injection H1 as H1. injection H2 as H2.
  pose proof (parse_loop_bounds radix cs1 0 w1 (Z.le_refl 0) P1) as B1.
  pose proof (parse_loop_bounds radix cs2 0 w2 (Z.le_refl 0) P2) as B2.
  rewrite <- Hl in H2, B2.
  apply digit_of_range in E1 as [R1 C1], E2 as [R2 C2].
  set (P := radix ^ Z.of_nat (List.length cs1)) in *.
  assert (d1 = d2) as Hd.
  { destruct (Z.lt_trichotomy d1 d2) as [Hlt|[Heq|Hgt]]; [|assumption|].
    - assert ((d1 + 1) * P <= d2 * P) by (apply Z.mul_le_mono_nonneg_r; lia).
      lia.
    - assert ((d2 + 1) * P <= d1 * P) by (apply Z.mul_le_mono_nonneg_r; lia).
      lia. }
  subst d2. assert (w1 = w2) as Hw by lia. subst w2. f_equal; [congruence|].
  exact (IH cs2 w1 Hl eq_refl P2).
Qed.

(** X15.  Decoding is unambiguous: two digit strings of the same length
    that parse to the same value in the same radix are equal up to the
    case of their letters. *)
Theorem parse_injective (s1 s2 : string) (radix v : Z) :
  String.length s1 = String.length s2 ->
  parseBigInt s1 radix = Ok v ->
  parseBigInt s2 radix = Ok v ->
  toLowerCase (list_ascii_of_string s1) = toLowerCase (list_ascii_of_string s2).
Proof.
  unfold parseBigInt. intros Hl H1 H2.
  apply (parse_loop_injective radix _ _ v); try assumption.
  unfold toLowerCase. rewrite !length_map, !list_ascii_of_string_length.
  assumption.
Qed.

Lemma parse_injective_witness :
  toLowerCase (list_ascii_of_string "Ff")
  = toLowerCase (list_ascii_of_string "fF").
Proof.
  apply (parse_injective "Ff" "fF" 16 255); reflexivity.
Defined.

(** X16.  The radix is not validated: with a radix of 0 or below every
    non-empty string is rejected, with InvalidDigit or DigitOutOfRange
    according to its first character. *)
Theorem parse_nonpositive_radix (ch : ascii) (str : string) (radix : Z) :
  radix <= 0 ->
  (digit_value ch = None ->
   parseBigInt (String ch str) radix = Throw InvalidDigit)
  /\ (digit_value ch <> None ->
      parseBigInt (String ch str) radix = Throw DigitOutOfRange).
Proof.
  intros Hr. unfold parseBigInt. cbn [list_ascii_of_string].
  rewrite parse_loop_step. split.
  - intros ->. reflexivity.
  - destruct (digit_value ch) as [v|] eqn:Hv; [|contradiction]. intros _.
    apply digit_value_range in Hv.
    destruct (Z.geb_spec v radix); [reflexivity | lia].
Qed.

Lemma parse_nonpositive_radix_witness :
  parseBigInt (String "0" "") 0 = Throw DigitOutOfRange.
Proof.
  apply (proj2 (parse_nonpositive_radix "0" "" 0 ltac:(lia))).
  discriminate.
Defined.

(** ** [computeConstantTerm] (lines 79-108) *)

Lemma map_result_app {A B : Type} (f : A -> result B) (l1 l2 : list A) :
  map_result f (l1 ++ l2)
  = (bs1 <- map_result f l1 ;; bs2 <- map_result f l2 ;; Ok (bs1 ++ bs2)).
Proof.
  induction l1 as [|a l1 IH]; cbn [app map_result bind].
  - destruct (map_result f l2); reflexivity.
  - destruct (f a) as [b|e]; [|reflexivity]. cbn [bind]. rewrite IH.
    destruct (map_result f l1) as [bs1|e]; [|reflexivity]. cbn [bind].
    destruct (map_result f l2); reflexivity.
Qed.

(** X17.  Every entry is decoded before the array is cut to [k]: when an
    entry fails to decode and the entries enumerated before it decode, the
    call fails with the error of that entry, whatever [k] is and wherever
    the entry stands. *)
Theorem decode_error_surfaces
  (testcase : TestCase) (pre post : list (string * Share))
  (e : string * Share) (pts : list Point.t) (err : error) :
  Object_entries (pointsRaw testcase) = pre ++ e :: post ->
  map_result decode_entry pre = Ok pts ->
  decode_entry e = Throw err ->
  computeConstantTerm testcase = Throw err
  /\ (err = SyntaxError \/ err = InvalidDigit \/ err = DigitOutOfRange).
Proof.
  intros HE Hpre He. split.
  - unfold computeConstantTerm, extract_entries, decoded_entries.
    rewrite HE, map_result_app, Hpre. cbn [bind map_result].
    rewrite He. reflexivity.
  - unfold decode_entry in He.
    destruct (BigInt_of_string (fst e)) as [x|ex] eqn:Ex.
    + cbn [bind] in He. right.
      destruct (parse_cases (base (snd e))
                  (list_ascii_of_string (value (snd e))) 0)
        as [[_ [v Hv]] | [(p & c & q & _ & _ & _ & Hr)
                         | (p & c & q & w & _ & _ & _ & _ & Hr)]];
        unfold parseBigInt in He; rewrite ?Hv, ?Hr in He; cbn [bind] in He.
      * discriminate.
      * left. congruence.
      * right. congruence.
    + cbn [bind] in He. left. injection He as <-.
      unfold BigInt_of_string, digits_value in Ex.
      repeat match type of Ex with
             | context [match ?t with _ => _ end] => destruct t; cbn [bind] in Ex
             end; congruence.
Qed.

Lemma decode_error_surfaces_witness :
  computeConstantTerm case_bad_trailing = Throw DigitOutOfRange
  /\ (DigitOutOfRange = SyntaxError \/ DigitOutOfRange = InvalidDigit
      \/ DigitOutOfRange = DigitOutOfRange).
Proof.
  apply (decode_error_surfaces case_bad_trailing
           [entry "1" 10 "5"] [] (entry "2" 10 "5g") [Point.mk 1 5]);
    reflexivity.
Defined.

Lemma for_each_app {S : Type} (l1 l2 : list nat)
  (body : nat -> S -> result S) (s : S) :
  for_each (l1 ++ l2) body s
  = (s' <- for_each l1 body s ;; for_each l2 body s').
Proof.
  revert s. induction l1 as [|j l1 IH]; intros s; [reflexivity|].
  cbn [app for_each]. destruct (body j s); [apply IH | reflexivity].
Qed.

Lemma get_beyond {A : Type} (arr : list A) (i : nat) :
  (List.length arr <= i)%nat -> get arr i = Throw TypeError.
Proof.
  intros H. unfold get. apply nth_error_None in H. now rewrite H.
Qed.

(** Fewer entries than [k], pairwise different x-coordinates: the first
    basis value already reads past the end of the array. *)
Lemma reconstruct_short (entries : list Point.t) (k : Z) :
  (List.length entries < Z.to_nat k)%nat ->
  NoDup (map Point.x entries) ->
  reconstruct entries k = Throw TypeError.
Proof.
  intros Hlen Hnd. unfold reconstruct, range. rewrite new_zero. cbn [bind].
  destruct (Z.to_nat k) as [|m] eqn:Ek; [lia|].
  cbn [seq for_each]. unfold sum_body at 1.
  destruct entries as [|e0 rest] eqn:Een.
  { reflexivity. }
  rewrite <- Een in *. assert (get entries 0 = Ok e0) as -> by (now subst).
  cbn [bind]. unfold basis, range. rewrite new_one, Ek. cbn [bind].
  replace (S m) with (List.length entries + (S m - List.length entries))%nat
    by lia.
  rewrite seq_app, for_each_app.
  destruct (basis_loop entries 0 (Point.x e0) entries [] 0%nat
              (Rational.mk 1 1) eq_refl eq_refl canonical_one)
    as [(Li & E & _)|[_ Hcl]].
  - rewrite E. cbn [bind Nat.add].
    destruct (S m - List.length entries)%nat as [|r] eqn:Er; [lia|].
    cbn [seq for_each]. unfold basis_body at 1.
    destruct (Nat.eqb_spec (List.length entries) 0) as [E0|_];
      [subst entries; discriminate E0|].
    rewrite get_beyond by lia. reflexivity.
  - exfalso. apply (clash_not_NoDup entries); [|assumption].
    exists 0%nat, e0. split; [now subst | exact Hcl].
Qed.

(** X18.  With fewer entries than the threshold (and pairwise different
    x-coordinates) the call fails with a TypeError, raised by the read of
    [entries[j].x] past the end of the array. *)
Theorem too_few_points (testcase : TestCase) (all : list Point.t) :
  decoded_entries testcase = Ok all ->
  Z.of_nat (List.length all) < keys_k testcase ->
  NoDup (map Point.x all) ->
  computeConstantTerm testcase = Throw TypeError.
Proof.
  intros Hd Hk Hnd.
  rewrite (computeConstantTerm_decoded _ _ Hd), slice0_firstn by lia.
  rewrite firstn_all2 by lia.
  apply reconstruct_short; [lia | assumption].
Qed.

Lemma too_few_points_witness :
  computeConstantTerm case_too_few = Throw TypeError.
Proof.
  apply (too_few_points case_too_few [Point.mk 1 6; Point.mk 2 7]).
  - reflexivity.
  - cbn; lia.
  - prove_NoDup.
Defined.

(** The three outcomes of the loops on exactly [k] entries. *)
Lemma reconstruct_outcome (entries : list Point.t) (k : Z) :
  List.length entries = Z.to_nat k ->
  (~ NoDup (map Point.x entries)
   /\ reconstruct entries k = Throw DivisionByZero)
  \/ (NoDup (map Point.x entries)
      /\ exists v, (lagrange0 entries == inject_Z v)%Q
                   /\ reconstruct entries k = Ok v)
  \/ (NoDup (map Point.x entries)
      /\ (forall v, ~ (lagrange0 entries == inject_Z v)%Q)
      /\ reconstruct entries k = Throw NonIntegralResult).
Proof.
  intros Hk.
  destruct (reconstruct_cases entries k Hk)
    as [(c & E & Hc & Hq & Hn)|[E Hcl]].
  - apply no_clash_NoDup in Hn.
    rewrite lagrange_rows_lagrange0 in Hq by assumption.
    right. rewrite E. unfold Rational.toBigInt.
    destruct (Z.eqb_spec (Rational.d c) 1) as [E1|E1]; cbn [negb].
    + left. split; [assumption|]. exists (Rational.n c).
      split; [|reflexivity].
      rewrite <- Hq. unfold Q_of. rewrite E1. apply Qdiv_inject_one.
    + right. split; [assumption | split; [|reflexivity]].
      intros v Hv. apply E1.
      rewrite (canonical_integer c v Hc); [reflexivity|].
      rewrite Hq. assumption.
  - left. split; [apply clash_not_NoDup|]; assumption.
Qed.

(** X19.  On a test case that decodes and holds at least [k] points, the
    call ends in one of three ways, decided by the first [k] points: with
    DivisionByZero exactly when two of them share an x-coordinate, with
    the integer [v] exactly when their x-coordinates differ and Lagrange's
    formula at 0 has the value [v], and with NonIntegralResult exactly when
    the x-coordinates differ and that value is no integer. *)
Theorem outcome_characterisation (testcase : TestCase) (all : list Point.t) :
  decoded_entries testcase = Ok all ->
  0 <= keys_k testcase <= Z.of_nat (List.length all) ->
  let pts := firstn (Z.to_nat (keys_k testcase)) all in
  (computeConstantTerm testcase = Throw DivisionByZero
   <-> ~ NoDup (map Point.x pts))
  /\ (forall v,
         computeConstantTerm testcase = Ok v
         <-> NoDup (map Point.x pts) /\ (lagrange0 pts == inject_Z v)%Q)
  /\ (computeConstantTerm testcase = Throw NonIntegralResult
      <-> NoDup (map Point.x pts)
          /\ forall v, ~ (lagrange0 pts == inject_Z v)%Q)
  /\ (forall e,
         computeConstantTerm testcase = Throw e ->
         e = DivisionByZero \/ e = NonIntegralResult).
Proof.
  intros Hd Hk pts.
  rewrite (computeConstantTerm_decoded _ _ Hd), slice0_firstn by lia.
  fold pts.
  assert (List.length pts = Z.to_nat (keys_k testcase)) as Hlen
      by (apply firstn_length_le; lia).
  destruct (reconstruct_outcome pts _ Hlen)
    as [[Hnd E] | [(Hnd & v0 & Hv0 & E) | (Hnd & Hno & E)]]; rewrite E.
  - split; [|split; [|split]].
    + tauto.
    + intros v. split; [discriminate | tauto].
    + split; [discriminate | tauto].
    + intros e [= <-]. now left.
  - split; [|split; [|split]].
    + split; [discriminate | tauto].
    + intros v. split.
      * intros [= <-]. split; assumption.
      * intros [_ Hv]. f_equal. apply inject_Z_injective.
        rewrite <- Hv0, <- Hv. reflexivity.
    + split; [discriminate|]. intros [_ Hno]. exfalso. exact (Hno v0 Hv0).
    + discriminate.
  - split; [|split; [|split]].
    + split; [discriminate | tauto].
    + intros v. split; [discriminate|]. intros [_ Hv]. exfalso.
      exact (Hno v Hv).
    + split; intros _; [split; assumption | reflexivity].
    + intros e [= <-]. now right.
Qed.

Lemma outcome_characterisation_witness :
  computeConstantTerm case_duplicate_x = Throw DivisionByZero.
Proof.
  apply (proj2 (proj1 (outcome_characterisation case_duplicate_x
                         [Point.mk 1 5; Point.mk 1 7]
                         eq_refl ltac:(cbn; lia)))).
  cbn. intros H. inversion H as [|? ? Hin _]. apply Hin. now left.
Defined.

(** The line through (1, 1) and (3, 2) meets the axis at 1/2. *)
Example half_is_not_integral :
  computeConstantTerm case_half = Throw NonIntegralResult.
Proof. reflexivity. Qed.

Lemma weight_zero_node (xs : list Z) : (weight 0 xs == 1)%Q.
Proof.
  induction xs as [|z xs IH]; cbn [weight]; [reflexivity|].
  destruct (Z.eqb_spec z 0) as [|Hz]; [assumption|].
  rewrite IH, factor_Q. change (inject_Z 0) with 0%Q. field.
  intros E. apply (inject_Z_nonzero z Hz).
  rewrite <- E. ring.
Qed.

Lemma weight_beside_zero (a : Z) (xs : list Z) :
  a <> 0 -> In 0 xs -> (weight a xs == 0)%Q.
Proof.
  intros Ha. induction xs as [|z xs IH]; intros Hin; [contradiction|].
  cbn [weight]. destruct (Z.eqb_spec z a) as [->|Hz].
  - apply IH. destruct Hin as [E|Hin]; [congruence | assumption].
  - destruct Hin as [->|Hin].
    + rewrite factor_Q. change (inject_Z 0) with 0%Q. field.
      intros E. apply (inject_Z_nonzero a Ha). rewrite <- E. ring.
    + rewrite (IH Hin). ring.
Qed.

Lemma sumQ_zero {A : Type} (F : A -> Q) (l : list A) :
  (forall a, In a l -> (F a == 0)%Q) -> (sumQ F l == 0)%Q.
Proof.
  induction l as [|a l IH]; intros H; cbn [sumQ]; [reflexivity|].
  rewrite (H a (or_introl eq_refl)), IH; [ring|].
  intros b Hb. apply H. now right.
Qed.

(** With a point at x = 0 among pairwise different nodes, Lagrange's
    formula at 0 is the value of that point. *)
Lemma lagrange0_node_zero (pts : list Point.t) (e : Point.t) :
  NoDup (map Point.x pts) ->
  In e pts -> Point.x e = 0 ->
  (lagrange0 pts == inject_Z (Point.y e))%Q.
Proof.
  intros Hnd Hin Hx. unfold lagrange0.
  destruct (in_split e pts Hin) as (pre & post & Hsplit).
  assert (Permutation pts (e :: pre ++ post)) as HP
      by (rewrite Hsplit; symmetry; apply Permutation_middle).
  rewrite (sumQ_Permutation _ _ _ HP). cbn [sumQ].
  rewrite Hx, weight_zero_node, sumQ_zero; [ring|].
  intros p Hp.
  assert (In 0 (map Point.x pts)) as H0
      by (rewrite <- Hx; apply in_map; assumption).
  rewrite weight_beside_zero; [ring | | assumption].
  intros Hp0. rewrite Hsplit, map_app in Hnd. cbn [map] in Hnd.
  apply NoDup_remove_2 in Hnd. apply Hnd.
  rewrite Hx, <- Hp0, <- map_app. apply in_map. assumption.
Qed.

(** X20.  When the first [k] points have pairwise different x-coordinates
    and one of them lies at x = 0, the call returns the value of that
    point: the secret itself was handed in as a share. *)
Theorem node_at_zero
  (testcase : TestCase) (all : list Point.t) (e : Point.t) :
  decoded_entries testcase = Ok all ->
  0 <= keys_k testcase <= Z.of_nat (List.length all) ->
  NoDup (map Point.x (firstn (Z.to_nat (keys_k testcase)) all)) ->
  In e (firstn (Z.to_nat (keys_k testcase)) all) ->
  Point.x e = 0 ->
  computeConstantTerm testcase = Ok (Point.y e).
Proof.
  intros Hd Hk Hnd Hin Hx.
  rewrite (computeConstantTerm_decoded _ _ Hd), slice0_firstn by lia.
  set (pts := firstn (Z.to_nat (keys_k testcase)) all) in *.
  destruct (reconstruct_distinct pts (keys_k testcase)) as (c & E & Hc & Hq);
    [apply firstn_length_le; lia | assumption |].
  rewrite (lagrange0_node_zero pts e Hnd Hin Hx) in Hq.
  rewrite E, (canonical_integer c _ Hc Hq). reflexivity.
Qed.

Lemma node_at_zero_witness :
  computeConstantTerm case_node_zero = Ok 42.
Proof.
  apply (node_at_zero case_node_zero
           [Point.mk 0 42; Point.mk 5 11; Point.mk 9 3] (Point.mk 0 42)).
  - reflexivity.
  - cbn; lia.
  - cbn. prove_NoDup.
  - left. reflexivity.
  - reflexivity.
Defined.

(** X21.  With threshold 1 the call returns the value of the first point
    in enumeration order, whatever its x-coordinate and whatever the other
    points are. *)
Theorem threshold_one
  (testcase : TestCase) (e : Point.t) (others : list Point.t) :
  decoded_entries testcase = Ok (e :: others) ->
  keys_k testcase = 1 ->
  computeConstantTerm testcase = Ok (Point.y e).
Proof.
  intros Hd Hk.
  rewrite (computeConstantTerm_decoded _ _ Hd), Hk, slice0_firstn by lia.
  destruct e as [x y]. cbn [Point.y].
  change (Z.to_nat 1) with 1%nat. cbn [firstn].
  pose proof (reconstruct_sample [y] [x] ltac:(prove_NoDup) (le_n 1)) as H.
  cbn [sample map eval_poly List.length Z.of_nat Pos.of_succ_nat] in H.
  replace (y + x * 0) with y in H by lia.
  replace (y + 0 * 0) with y in H by lia.
  exact H.
Qed.

Lemma threshold_one_witness :
  computeConstantTerm case_written_descending = Ok 5.
Proof.
  apply (threshold_one case_written_descending
           (Point.mk 1 5) [Point.mk 2 7]); reflexivity.
Defined.

Lemma map_x_points_of (f : Z -> Z) (xs : list Z) :
  map Point.x (points_of f xs) = xs.
Proof. unfold points_of. rewrite map_map. cbn. apply map_id. Qed.

Lemma lagrange0_points_of (f : Z -> Z) (xs : list Z) :
  lagrange0 (points_of f xs) = lagrangeQ (fun a => inject_Z (f a)) xs.
Proof.
  unfold lagrange0. rewrite map_x_points_of. unfold points_of.
  rewrite sumQ_map. reflexivity.
Qed.

Lemma lagrangeQ_linear (f g : Z -> Q) (u v : Q) (xs : list Z) :
  (lagrangeQ (fun a => u * f a + v * g a) xs
   == u * lagrangeQ f xs + v * lagrangeQ g xs)%Q.
Proof.
  unfold lagrangeQ. rewrite <- sumQ_linear.
  apply sumQ_ext_in. intros a _. ring.
Qed.

Lemma reconstruct_points_of_value (f : Z -> Z) (xs : list Z) (k v : Z) :
  List.length xs = Z.to_nat k ->
  reconstruct (points_of f xs) k = Ok v ->
  NoDup xs /\ (lagrangeQ (fun a => inject_Z (f a)) xs == inject_Z v)%Q.
Proof.
  intros Hk H.
  destruct (reconstruct_outcome (points_of f xs) k)
    as [[_ E] | [(Hnd & w & Hw & E) | (_ & _ & E)]];
    [unfold points_of; rewrite length_map; assumption | | |];
    rewrite E in H; try discriminate.
  injection H as ->. rewrite map_x_points_of in Hnd.
  rewrite lagrange0_points_of in Hw. split; assumption.
Qed.

(** X22.  The interpolation is linear in the values of the points: when
    two sets of points over the same x-coordinates reconstruct to [v1] and
    [v2], the points whose values are [m1 * y1 + m2 * y2] reconstruct to
    [m1 * v1 + m2 * v2].  Shares can be added and scaled before the
    secret is recovered. *)
Theorem reconstruct_linear
  (f1 f2 : Z -> Z) (xs : list Z) (k m1 m2 v1 v2 : Z) :
  List.length xs = Z.to_nat k ->
  reconstruct (points_of f1 xs) k = Ok v1 ->
  reconstruct (points_of f2 xs) k = Ok v2 ->
  reconstruct (points_of (fun a => m1 * f1 a + m2 * f2 a) xs) k
  = Ok (m1 * v1 + m2 * v2).
Proof.
  intros Hk H1 H2.
  destruct (reconstruct_points_of_value f1 xs k v1 Hk H1) as [Hnd Hq1].
  destruct (reconstruct_points_of_value f2 xs k v2 Hk H2) as [_ Hq2].
  destruct (reconstruct_distinct
              (points_of (fun a => m1 * f1 a + m2 * f2 a) xs) k)
    as (c & E & Hc & Hq).
  - unfold points_of. rewrite length_map. assumption.
  - rewrite map_x_points_of. assumption.
  - rewrite E, (canonical_integer c (m1 * v1 + m2 * v2) Hc); [reflexivity|].
    rewrite Hq, lagrange0_points_of.
    transitivity
      (lagrangeQ (fun a => inject_Z m1 * inject_Z (f1 a)
                           + inject_Z m2 * inject_Z (f2 a))%Q xs).
    + unfold lagrangeQ. apply sumQ_ext_in. intros a _.
      rewrite inject_Z_plus, !inject_Z_mult. reflexivity.
    + rewrite lagrangeQ_linear, Hq1, Hq2, inject_Z_plus, !inject_Z_mult.
      reflexivity.
Qed.

Lemma reconstruct_linear_witness :
  reconstruct (points_of (fun a => 3 * (a + 5) + 2 * (2 * a + 8)) [1; 2]) 2
  = Ok (3 * 5 + 2 * 8).
Proof.
  apply (reconstruct_linear (fun a => a + 5) (fun a => 2 * a + 8)
           [1; 2] 2 3 2 5 8); reflexivity.
Defined.

(** X23.  The threshold is not validated: on a test case whose entries all
    decode, a negative [k] makes [slice] drop entries from the end and the
    loops run no turn, so the call returns 0 instead of failing. *)
Theorem negative_threshold (testcase : TestCase) (all : list Point.t) :
  keys_k testcase < 0 ->
  decoded_entries testcase = Ok all ->
  computeConstantTerm testcase = Ok 0
  /\ extract_entries testcase
     = Ok (firstn (List.length all - Z.to_nat (- keys_k testcase)) all).
Proof.
  intros Hk Hd. split.
  - rewrite (computeConstantTerm_decoded _ _ Hd).
    apply reconstruct_nonpositive. lia.
  - unfold extract_entries. rewrite Hd. cbn [bind]. unfold slice0.
    destruct (Z.ltb_spec (keys_k testcase) 0) as [_|]; [|lia].
    do 2 f_equal. lia.
Qed.

Lemma negative_threshold_witness :
  computeConstantTerm
    {| keys_k := -1; pointsRaw := pointsRaw case_linear |} = Ok 0
  /\ extract_entries {| keys_k := -1; pointsRaw := pointsRaw case_linear |}
     = Ok (firstn (List.length [Point.mk 1 6; Point.mk 2 7; Point.mk 3 8]
                   - Z.to_nat (- keys_k {| keys_k := -1;
                                           pointsRaw := pointsRaw case_linear |}))
             [Point.mk 1 6; Point.mk 2 7; Point.mk 3 8]).
Proof.
  apply (negative_threshold
           {| keys_k := -1; pointsRaw := pointsRaw case_linear |}
           [Point.mk 1 6; Point.mk 2 7; Point.mk 3 8]).
  - cbn; lia.
  - reflexivity.
Defined.
